(** * MeteorApplyAstrometry: astrometry and field corrections for meteor data

    A shallow embedding of [triangulation/MeteorApplyAstrometry.py] and the
    properties of its six components: the distortion and vignetting
    corrector ([applyFieldCorrection]), the sky projector ([XY2altAz]), the
    equatorial converter ([altAz2RADec]), the magnitude estimator
    ([calculateMagnitudes]), the pipeline orchestrator ([XY2CorrectedRADec])
    and the cross-station point pairing ([findPointTimePairs]).

    Numbers.  Python and numpy floats are idealised as real numbers: rounding
    is ignored, and signed zeros are not distinguished.  Integers that the
    code divides with Python 2's [/] (the resolutions) are [Z], since that
    division floors.  Where numpy produces [inf] or [nan] instead of raising,
    the magnitude estimator is modelled over the extended reals [xreal];
    in the corrector such a value ends the modelled run with [NonFinite].

    One operation is also modelled with its rounding: [% 360], by which the
    projector and the converter normalise their angles.  On floats it can
    return 360 itself, which decides whether the angles stay below 360; so
    the projector and the converter take the remainder as a parameter, and
    are read with [pymod] (exact) and with [float_rem] (binary64). *)

From Stdlib Require Import Reals Lra Lia List ZArith Psatz Bool.
Import ListNotations.
Local Open Scope R_scope.

(** ** Python outcomes *)

(** The exceptions the module can raise. *)
Inductive exn : Type :=
| IndexError
| ValueError
| ZeroDivisionError.

(** The outcome of a call: a value, an exception, or a run in which numpy
    produced a non-finite number (a warning, no exception), after which the
    real-number model has nothing to say. *)
Inductive outcome (A : Type) : Type :=
| Ok (a : A)
| Raise (e : exn)
| NonFinite.

Arguments Ok {A} a.
Arguments Raise {A} e.
Arguments NonFinite {A}.

Definition bind {A B : Type} (c : outcome A) (k : A -> outcome B) : outcome B :=
  match c with
  | Ok a => k a
  | Raise e => Raise e
  | NonFinite => NonFinite
  end.

Notation "x <- c ;; k" := (bind c (fun x => k))
  (at level 61, c at next level, right associativity).
Notation "' p <- c ;; k" := (bind c (fun p => k))
  (at level 61, p pattern, c at next level, right associativity).

(** A [for] loop that fills an output array element by element. *)
Fixpoint mapM {A B : Type} (f : A -> outcome B) (l : list A) : outcome (list B) :=
  match l with
  | [] => Ok []
  | a :: l' => b <- f a ;; bs <- mapM f l' ;; Ok (b :: bs)
  end.

(** A [for] loop that threads a state. *)
Fixpoint foldM {A S : Type} (f : S -> A -> outcome S) (l : list A) (s : S) : outcome S :=
  match l with
  | [] => Ok s
  | a :: l' => s' <- f s a ;; foldM f l' s'
  end.

(** [l[i]] for [i >= 0]. *)
Definition index {A : Type} (l : list A) (i : nat) : outcome A :=
  match nth_error l i with
  | Some a => Ok a
  | None => Raise IndexError
  end.

(** [l[-1]]. *)
Definition index_last {A : Type} (l : list A) : outcome A :=
  index l (length l - 1).

(** [enumerate(l)]. *)
Definition enumerate {A : Type} (l : list A) : list (nat * A) :=
  combine (seq 0 (length l)) l.

(** ** Cross-station point pairing *)

(** A station point: Julian date, right ascension, declination and a fourth
    component that the pairing does not read. *)
Record point : Type := mkPoint {
  jd : R;
  ra : R;
  dec : R;
  extra : R
}.

(** [diff = abs(point1[0] - point2[0])]. *)
Definition time_diff (point1 point2 : point) : R :=
  Rabs (jd point1 - jd point2).

(** One iteration of the inner loop over [enumerate(station_obj2.points)]. *)
Definition scan_step (point1 : point) (st : nat * R) (kp : nat * point) : nat * R :=
  let '(min_index, min_diff) := st in
  let '(k, point2) := kp in
  let diff := time_diff point1 point2 in
  if Rlt_dec diff min_diff then (k, diff) else (min_index, min_diff).

(** The search for one point of station 1, from the index hint left by the
    previous point: the final [(min_index, min_diff)]. *)
Definition closest (points2 : list point) (min_index : nat) (point1 : point)
  : outcome (nat * R) :=
  p0 <- index points2 min_index ;;
  Ok (fold_left (scan_step point1) (enumerate points2) (min_index, time_diff point1 p0)).

(** One iteration of the outer loop; the state is [(min_index, point_pairs)]. *)
Definition pair_step (points2 : list point) (max_dt : R)
    (st : nat * list (point * point)) (point1 : point)
  : outcome (nat * list (point * point)) :=
  let '(min_index, point_pairs) := st in
  '(min_index', min_diff) <- closest points2 min_index point1 ;;
  if Rlt_dec min_diff max_dt then
    p2 <- index points2 min_index' ;;
    Ok (min_index', point_pairs ++ [(point1, p2)])
  else Ok (min_index', point_pairs).

(** [findPointTimePairs(station_obj1, station_obj2, max_dt)], on the point
    lists of the two stations.  The [print] of each pair is not modelled. *)
Definition findPointTimePairs (points1 points2 : list point) (max_dt : R)
  : outcome (list (point * point)) :=
  let max_dt := max_dt / 60 / 60 / 24 in
  '(_, point_pairs) <- foldM (pair_step points2 max_dt) points1 (0%nat, []) ;;
  Ok point_pairs.

(** ** Numbers *)

(** [math.radians], [math.degrees], [np.log10] on positive reals. *)
Definition radians (x : R) : R := x * PI / 180.
Definition degrees (x : R) : R := x * 180 / PI.
Definition log10 (x : R) : R := ln x / ln 10.

(** [math.atan2(y, x)]. *)
Definition atan2 (y x : R) : R :=
  if Rlt_dec 0 x then atan (y / x)
  else if Rlt_dec x 0 then
    if Rlt_dec y 0 then atan (y / x) - PI else atan (y / x) + PI
  else if Rlt_dec 0 y then PI / 2
  else if Rlt_dec y 0 then - (PI / 2)
  else 0.

(** Python's [x % m] in exact arithmetic: the remainder of the floored
    quotient. *)
Definition pymod (x m : R) : R := x - m * IZR (Int_part (x / m)).

(** *** The rounding of binary64 and [%] on floats *)

(** The binary exponent [e] of a real that is not zero:
    [2^e <= |x| < 2^(e+1)]. *)
Definition binade (x : R) : Z := Int_part (ln (Rabs x) / ln 2).

(** The distance between the binary64 numbers around [x]: 53 significant
    bits, and no exponent below -1022. *)
Definition ulp (x : R) : R := powerRZ 2 (Z.max (binade x) (-1022) - 52).

(** The integer nearest to [y], the even one when two are as near. *)
Definition nearest_even (y : R) : Z :=
  let n := Int_part y in
  if Rlt_dec (frac_part y) (1 / 2) then n
  else if Rlt_dec (1 / 2) (frac_part y) then (n + 1)%Z
  else if Z.even n then n else (n + 1)%Z.

(** The binary64 number nearest to [x], ties to even, as every arithmetic
    operation on floats rounds its exact result; overflow is left out. *)
Definition round_double (x : R) : R := IZR (nearest_even (x / ulp x)) * ulp x.

(** C's [fmod(x, m)]: the remainder of the quotient truncated towards zero.
    It has the sign of [x], and on floats it is exact. *)
Definition towards_zero (x : R) : Z :=
  if Rlt_dec x 0 then (- Int_part (- x))%Z else Int_part x.

Definition fmod (x m : R) : R := x - m * IZR (towards_zero (x / m)).

(** Python's [x % m] on floats for a modulus that is not zero, as the
    interpreter computes it: [fmod(x, m)], to which [m] is added when it is
    not zero and its sign is not the sign of [m].  That addition is an
    operation on floats, so it is rounded: for [m = 360] and a negative [x]
    very near 0 the sum [x + 360] rounds to [360] itself. *)
Definition float_rem (x m : R) : R :=
  let md := fmod x m in
  if Req_dec_T md 0 then 0
  else if Rlt_dec md 0
       then (if Rlt_dec m 0 then md else round_double (md + m))
       else (if Rlt_dec m 0 then round_double (md + m) else md).

(** [math.sqrt] and [math.asin] raise outside their domain; [/] on Python
    floats raises on a zero divisor. *)
Definition math_sqrt (x : R) : outcome R :=
  if Rlt_dec x 0 then Raise ValueError else Ok (sqrt x).

Definition math_asin (x : R) : outcome R :=
  if Rlt_dec x (-1) then Raise ValueError
  else if Rlt_dec 1 x then Raise ValueError
  else Ok (asin x).

Definition py_div (x y : R) : outcome R :=
  if Req_dec_T y 0 then Raise ZeroDivisionError else Ok (x / y).

(** [/] on a numpy scalar does not raise on a zero divisor: it warns and
    gives [inf] or [nan]. *)
Definition np_div (x y : R) : outcome R :=
  if Req_dec_T y 0 then NonFinite else Ok (x / y).

(** [np.vstack((a, b)).T] and [np.vstack((a, b, c)).T]: the rows of equally
    long arrays; arrays of different lengths are refused. *)
Definition vstack2 (a b : list R) : outcome (list (R * R)) :=
  if Nat.eqb (length a) (length b) then Ok (combine a b) else Raise ValueError.

Definition vstack3 (a b c : list R) : outcome (list (R * R * R)) :=
  if Nat.eqb (length a) (length b) && Nat.eqb (length b) (length c)
  then Ok (combine (combine a b) c) else Raise ValueError.

(** *** numpy's non-finite values *)

Inductive xreal : Type :=
| Fin (r : R)
| PInf
| NInf
| NaN.

(** A choice on the sign of a real. *)
Definition by_sign {A : Type} (r : R) (pos zero neg : A) : A :=
  if Rlt_dec 0 r then pos else if Rlt_dec r 0 then neg else zero.

Definition xneg (x : xreal) : xreal :=
  match x with
  | Fin r => Fin (- r)
  | PInf => NInf
  | NInf => PInf
  | NaN => NaN
  end.

Definition xadd (x y : xreal) : xreal :=
  match x, y with
  | NaN, _ | _, NaN => NaN
  | Fin a, Fin b => Fin (a + b)
  | PInf, NInf | NInf, PInf => NaN
  | PInf, _ | _, PInf => PInf
  | NInf, _ | _, NInf => NInf
  end.

Definition xsub (x y : xreal) : xreal := xadd x (xneg y).

Definition xmul (x y : xreal) : xreal :=
  match x, y with
  | NaN, _ | _, NaN => NaN
  | Fin a, Fin b => Fin (a * b)
  | Fin a, PInf | PInf, Fin a => by_sign a PInf NaN NInf
  | Fin a, NInf | NInf, Fin a => by_sign a NInf NaN PInf
  | PInf, PInf | NInf, NInf => PInf
  | PInf, NInf | NInf, PInf => NInf
  end.

(** Division; a zero divisor is taken as [+0.0]. *)
Definition xdiv (x y : xreal) : xreal :=
  match x, y with
  | NaN, _ | _, NaN => NaN
  | Fin a, Fin b => if Req_dec_T b 0 then by_sign a PInf NaN NInf else Fin (a / b)
  | Fin _, _ => Fin 0
  | PInf, Fin b => by_sign b PInf PInf NInf
  | NInf, Fin b => by_sign b NInf NInf PInf
  | _, _ => NaN
  end.

(** [np.log10]. *)
Definition xlog10 (x : xreal) : xreal :=
  match x with
  | Fin a => by_sign a (Fin (log10 a)) NInf NaN
  | PInf => PInf
  | _ => NaN
  end.

(** [np.arccos] of a finite number, and [np.degrees]. *)
Definition np_arccos (x : R) : xreal :=
  if Rlt_dec x (-1) then NaN else if Rlt_dec 1 x then NaN else Fin (acos x).

Definition xdegrees (x : xreal) : xreal :=
  match x with
  | Fin r => Fin (degrees r)
  | _ => x
  end.

(** [x <= y] and [x > y]: false as soon as one side is [nan]. *)
Definition xleb (x y : xreal) : bool :=
  match x, y with
  | NaN, _ | _, NaN => false
  | Fin a, Fin b => if Rle_dec a b then true else false
  | NInf, _ | _, PInf => true
  | _, _ => false
  end.

Definition xgtb (x y : xreal) : bool :=
  match x, y with
  | NaN, _ | _, NaN => false
  | Fin a, Fin b => if Rlt_dec b a then true else false
  | PInf, PInf | NInf, _ | Fin _, PInf => false
  | _, _ => true
  end.

Declare Scope xreal_scope.
Delimit Scope xreal_scope with X.
Infix "+" := xadd : xreal_scope.
Infix "-" := xsub : xreal_scope.
Infix "*" := xmul : xreal_scope.
Infix "/" := xdiv : xreal_scope.

(** ** Distortion and vignetting corrector *)

(** The vignetting correction of one level, at CIF coordinates
    [(Xdet, Ydet)]. *)
Definition vignetting_radius (Xdet Ydet : R) : R :=
  sqrt ((Xdet - 192) ^ 2 + (Ydet - 192) ^ 2).

Definition vignetting (Xdet Ydet level : R) : R :=
  if Rlt_dec 120 (vignetting_radius Xdet Ydet)
  then level * (1 + 0.00245 * (vignetting_radius Xdet Ydet - 120))
  else level.

(** The distortion polynomial of one axis: [a] is the coordinate of that
    axis and [b] the other one in the two radial terms. *)
Definition distortion (poly : list R) (Xdet Ydet a b : R) : outcome R :=
  c0 <- index poly 0 ;; c1 <- index poly 1 ;; c2 <- index poly 2 ;;
  c3 <- index poly 3 ;; c4 <- index poly 4 ;; c5 <- index poly 5 ;;
  c6 <- index poly 6 ;; c7 <- index poly 7 ;; c8 <- index poly 8 ;;
  c9 <- index poly 9 ;; c10 <- index poly 10 ;; c11 <- index poly 11 ;;
  Ok (a + c0 + c1 * Xdet + c2 * Ydet
      + c3 * Xdet ^ 2 + c4 * Xdet * Ydet + c5 * Ydet ^ 2
      + c6 * Xdet ^ 3 + c7 * Xdet ^ 2 * Ydet + c8 * Xdet * Ydet ^ 2 + c9 * Ydet ^ 3
      + c10 * a * sqrt (Xdet ^ 2 + Ydet ^ 2)
      + c11 * b * sqrt (Xdet ^ 2 + Ydet ^ 2)).

(** The CIF coordinate of a detected coordinate: [(Xdet - X_res/2)/X_scale]
    with [X_scale = X_res/cif]; [X_res/2] is an integer division. *)
Definition to_CIF (res : Z) (cif : R) (det : R) : outcome R :=
  np_div (det - IZR (res / 2)) (IZR res / cif).

(** The body of the loop of [applyFieldCorrection]. *)
Definition correct_point (x_poly y_poly : list R) (X_res Y_res : Z) (F_scale : R)
    (row : R * R * R) : outcome (R * R * R) :=
  let '(Xdet, Ydet, level) := row in
  Xdet <- to_CIF X_res 384 Xdet ;;
  Ydet <- to_CIF Y_res 288 Ydet ;;
  let level := vignetting Xdet Ydet level in
  X_pix <- distortion x_poly Xdet Ydet Xdet Ydet ;;
  Y_pix <- distortion y_poly Xdet Ydet Ydet Xdet ;;
  X_pix <- np_div X_pix F_scale ;;
  Y_pix <- np_div Y_pix F_scale ;;
  Ok (X_pix, Y_pix, level).

(** [applyFieldCorrection]: the three output arrays. *)
Definition unzip3 (l : list (R * R * R)) : list R * list R * list R :=
  (map (fun p => fst (fst p)) l, map (fun p => snd (fst p)) l, map snd l).

Definition applyFieldCorrection (x_poly y_poly : list R) (X_res Y_res : Z) (F_scale : R)
    (X_data Y_data level_data : list R) : outcome (list R * list R * list R) :=
  data_matrix <- vstack3 X_data Y_data level_data ;;
  out <- mapM (correct_point x_poly y_poly X_res Y_res F_scale) data_matrix ;;
  Ok (unzip3 out).

(** ** Sky projector *)

Section Projector.

(** Python's [%] on floats.  It is read in two ways: as [pymod], in exact
    arithmetic like every other operation of this development, and as
    [float_rem], with the rounding of its addition, for the range of the
    angles, which this rounding decides. *)
Variable rem : R -> R -> R.

(** The body of the loop of [XY2altAz], with [dec_rad], [sl] and [cl]
    computed before the loop. *)
Definition project_point_with (lat RA_d Ho rot_param dec_rad sl cl : R) (row : R * R)
  : outcome (R * R) :=
  let '(X_pix, Y_pix) := row in
  let radius := radians (sqrt (X_pix ^ 2 + Y_pix ^ 2)) in
  let theta := radians (rem (90 - rot_param + degrees (atan2 Y_pix X_pix)) 360) in
  let sin_t := sin dec_rad * cos radius + cos dec_rad * sin radius * cos theta in
  root <- math_sqrt (1 - sin_t ^ 2) ;;
  let Dec0det := atan2 sin_t root in
  sin_t <- py_div (sin theta * sin radius) (cos Dec0det) ;;
  cos_t <- py_div (cos radius - sin Dec0det * sin dec_rad) (cos Dec0det * cos dec_rad) ;;
  let RA0det := RA_d - rem (degrees (atan2 sin_t cos_t)) 360 in
  let h := radians (Ho + lat - RA0det) in
  let sh := sin h in
  let sd := sin Dec0det in
  let ch := cos h in
  let cd := cos Dec0det in
  let x := - ch * cd * sl + sd * cl in
  let y := - sh * cd in
  let z := ch * cd * cl + sd * sl in
  r <- math_sqrt (x ^ 2 + y ^ 2) ;;
  let azimuth := rem (degrees (atan2 y x)) 360 in
  let altitude := degrees (atan2 z r) in
  Ok (azimuth, altitude).

(** [XY2altAz]: the azimuth and altitude arrays. *)
Definition XY2altAz_with (lat lon RA_d dec_d Ho rot_param : R) (X_data Y_data : list R)
  : outcome (list R * list R) :=
  let dec_rad := radians dec_d in
  let sl := sin (radians lon) in
  let cl := cos (radians lon) in
  data_matrix <- vstack2 X_data Y_data ;;
  out <- mapM (project_point_with lat RA_d Ho rot_param dec_rad sl cl) data_matrix ;;
  Ok (map fst out, map snd out).

End Projector.

(** The projector in exact arithmetic, and with [%] as on floats. *)
Definition project_point := project_point_with pymod.
Definition XY2altAz := XY2altAz_with pymod.
Definition XY2altAz_float := XY2altAz_with float_rem.

(** ** Magnitude estimator *)

(** The body of the loop of [calculateMagnitudes]: the magnitude before the
    correction for angular velocity, then the correction. *)
Definition base_magnitude (mag_0 mag_lev level : R) : xreal :=
  if xleb (xlog10 (Fin level)) (Fin 3.2)
  then (Fin mag_0 * xlog10 (Fin level) + Fin mag_lev)%X
  else (Fin (-20) * xlog10 (Fin level) + Fin 64.5)%X.

Definition magnitude_of (angular_v : xreal) (mag_0 mag_lev w_pix : R) (level : R)
  : xreal :=
  let magnitude := base_magnitude mag_0 mag_lev level in
  if xgtb angular_v (Fin w_pix)
  then (magnitude - Fin 2.5 * xlog10 (angular_v / Fin w_pix))%X
  else magnitude.

(** The length of the trail in degrees and the angular velocity.  In exact
    arithmetic the argument of [np.arccos] lies in [-1, 1]; on floats a
    rounding error can take it out of that interval, and [np.arccos] then
    gives [nan]. *)
Definition trail_length (ra_beg ra_end dec_beg dec_end : R) : xreal :=
  let ra_beg := radians ra_beg in
  let ra_end := radians ra_end in
  let dec_beg := radians dec_beg in
  let dec_end := radians dec_end in
  xdegrees (np_arccos (sin dec_beg * sin dec_end
                       + cos dec_beg * cos dec_end * cos (ra_beg - ra_end))).

Definition angular_velocity (ra_beg ra_end dec_beg dec_end duration : R) : xreal :=
  (trail_length ra_beg ra_end dec_beg dec_end / Fin duration)%X.

(** [calculateMagnitudes]; numpy arithmetic throughout, so no exception. *)
Definition calculateMagnitudes (level_data : list R)
    (ra_beg ra_end dec_beg dec_end duration mag_0 mag_lev w_pix : R) : list xreal :=
  let angular_v := angular_velocity ra_beg ra_end dec_beg dec_end duration in
  map (magnitude_of angular_v mag_0 mag_lev w_pix) level_data.

(** ** Equatorial converter and pipeline orchestrator *)

(** A row of [time_data]. *)
Record timestamp : Type := mkTime {
  year : Z; month : Z; day : Z; hour : Z; minute : Z; second : Z; millisecond : Z
}.

Section WithJulianDate.

(** [date2JD(Y, M, D, h, m, s, ms, UT_corr)] of [MeteorTriangulation], which
    this module imports. *)
Variable date2JD : Z -> Z -> Z -> Z -> Z -> Z -> Z -> R -> R.

Section Converter.

(** Python's [%] on floats, as in the projector. *)
Variable rem : R -> R -> R.

(** The referent hour angle at a Julian date. *)
Definition sidereal_with (JD : R) : R :=
  let T := (JD - 2451545.0) / 36525.0 in
  rem (280.46061837 + 360.98564736629 * (JD - 2451545.0)
       + 0.000387933 * T ^ 2 - T ^ 3 / 38710000.0) 360.

(** The body of the loop of [altAz2RADec]; [i] is the loop counter.  In
    exact arithmetic the argument of [math.asin] lies in [-1, 1]; on floats
    a rounding error can take it out of that interval, and [math.asin] then
    raises a value error. *)
Definition convert_point_with (lat UT_corr sl cl : R) (time_data : list timestamp)
    (irow : nat * (R * R)) : outcome (R * R * R) :=
  let '(i, (azimuth, altitude)) := irow in
  t <- index time_data i ;;
  let az_rad := radians azimuth in
  let alt_rad := radians altitude in
  let saz := sin az_rad in
  let salt := sin alt_rad in
  let caz := cos az_rad in
  let calt := cos alt_rad in
  let x := - saz * calt in
  let y := - caz * sl * calt + salt * cl in
  let HA := degrees (atan2 x y) in
  let JD := date2JD (year t) (month t) (day t) (hour t) (minute t) (second t)
                    (millisecond t) UT_corr in
  let Ho := sidereal_with JD in
  let RA := rem (Ho + lat - HA) 360 in
  dec <- math_asin (sl * salt + cl * calt * caz) ;;
  Ok (JD, RA, degrees dec).

(** [altAz2RADec]: the Julian date, right ascension and declination arrays. *)
Definition altAz2RADec_with (lat lon UT_corr : R) (time_data : list timestamp)
    (azimuth_data altitude_data : list R) : outcome (list R * list R * list R) :=
  let sl := sin (radians lon) in
  let cl := cos (radians lon) in
  data_matrix <- vstack2 azimuth_data altitude_data ;;
  out <- mapM (convert_point_with lat UT_corr sl cl time_data) (enumerate data_matrix) ;;
  Ok (unzip3 out).

End Converter.

(** The converter in exact arithmetic, and with [%] as on floats. *)
Definition sidereal := sidereal_with pymod.
Definition convert_point := convert_point_with pymod.
Definition altAz2RADec := altAz2RADec_with pymod.
Definition altAz2RADec_float := altAz2RADec_with float_rem.

(** [XY2CorrectedRADec]. *)
Definition XY2CorrectedRADec (time_data : list timestamp) (X_data Y_data level_data : list R)
    (UT_corr lat lon Ho : R) (X_res Y_res : Z) (RA_d dec_d rot_param F_scale
    w_pix mag_0 mag_lev : R) (x_poly y_poly : list R)
  : outcome (list R * list R * list R * list xreal) :=
  '(X_corrected, Y_corrected, levels_corrected) <-
    applyFieldCorrection x_poly y_poly X_res Y_res F_scale X_data Y_data level_data ;;
  '(az_data, alt_data) <-
    XY2altAz lat lon RA_d dec_d Ho rot_param X_corrected Y_corrected ;;
  '(JD_data, RA_data, dec_data) <-
    altAz2RADec lat lon UT_corr time_data az_data alt_data ;;
  ra_beg <- index RA_data 0 ;;
  ra_end <- index_last RA_data ;;
  dec_beg <- index dec_data 0 ;;
  dec_end <- index_last dec_data ;;
  JD_end <- index_last JD_data ;;
  JD_beg <- index JD_data 0 ;;
  let duration := (JD_end - JD_beg) * 86400 in
  let magnitude_data :=
    calculateMagnitudes levels_corrected ra_beg ra_end dec_beg dec_end duration
                        mag_0 mag_lev w_pix in
  Ok (JD_data, RA_data, dec_data, magnitude_data).

(** *** The pipeline in the words of its contract *)

(** Corrector, then projector, then converter, each on the output of the one
    before; then the magnitudes from the corrected levels, the first and
    last converted points and the duration in seconds. *)
Definition run_pipeline (time_data : list timestamp) (X_data Y_data level_data : list R)
    (UT_corr lat lon Ho : R) (X_res Y_res : Z) (RA_d dec_d rot_param F_scale
    w_pix mag_0 mag_lev : R) (x_poly y_poly : list R)
  : outcome (list R * list R * list R * list xreal) :=
  corrected <- applyFieldCorrection x_poly y_poly X_res Y_res F_scale
                                    X_data Y_data level_data ;;
  sky <- XY2altAz lat lon RA_d dec_d Ho rot_param (fst (fst corrected)) (snd (fst corrected)) ;;
  equatorial <- altAz2RADec lat lon UT_corr time_data (fst sky) (snd sky) ;;
  let JD_data := fst (fst equatorial) in
  let RA_data := snd (fst equatorial) in
  let dec_data := snd equatorial in
  let duration := (last JD_data 0 - hd 0 JD_data) * 86400 in
  Ok (JD_data, RA_data, dec_data,
      calculateMagnitudes (snd corrected) (hd 0 RA_data) (last RA_data 0)
                          (hd 0 dec_data) (last dec_data 0) duration mag_0 mag_lev w_pix).

End WithJulianDate.

(** ** Notions used in the statements *)

(** [x < y] as a boolean. *)
Definition Rltb (x y : R) : bool := if Rlt_dec x y then true else false.

(** The least absolute time difference between [p] and the points of a
    station (0 for a station without points). *)
Definition min_time_diff (p : point) (points2 : list point) : R :=
  match points2 with
  | [] => 0
  | b :: rest => fold_left Rmin (map (time_diff p) rest) (time_diff p b)
  end.

(** The point at index [k] of [points2] is as close in time to [p] as any
    point of [points2]. *)
Definition attains_minimum (points2 : list point) (p : point) (k : nat) : Prop :=
  exists bk, nth_error points2 k = Some bk /\
    forall b, In b points2 -> time_diff p bk <= time_diff p b.

(** [k] is the smallest index of [points2] that attains the minimum. *)
Definition first_minimiser (points2 : list point) (p : point) (k : nat) : Prop :=
  attains_minimum points2 p k /\
  forall j bj bk, (j < k)%nat -> nth_error points2 j = Some bj ->
    nth_error points2 k = Some bk -> time_diff p bk < time_diff p bj.

(** The value of the distortion polynomial when all twelve coefficients are
    there. *)
Definition poly_value (poly : list R) (Xdet Ydet a b : R) : R :=
  a + nth 0 poly 0 + nth 1 poly 0 * Xdet + nth 2 poly 0 * Ydet
  + nth 3 poly 0 * Xdet ^ 2 + nth 4 poly 0 * Xdet * Ydet + nth 5 poly 0 * Ydet ^ 2
  + nth 6 poly 0 * Xdet ^ 3 + nth 7 poly 0 * Xdet ^ 2 * Ydet
  + nth 8 poly 0 * Xdet * Ydet ^ 2 + nth 9 poly 0 * Ydet ^ 3
  + nth 10 poly 0 * a * sqrt (Xdet ^ 2 + Ydet ^ 2)
  + nth 11 poly 0 * b * sqrt (Xdet ^ 2 + Ydet ^ 2).

(** The CIF coordinate when the resolution is not zero, and the vignetting
    radius of a detected point. *)
Definition CIF_coord (res : Z) (cif : R) (det : R) : R :=
  (det - IZR (res / 2)) / (IZR res / cif).

Definition CIF_radius (X_res Y_res : Z) (x y : R) : R :=
  vignetting_radius (CIF_coord X_res 384 x) (CIF_coord Y_res 288 y).

(** The corrected point of a detected point, when all twelve coefficients
    are there and the resolutions and the scale are not zero. *)
Definition corrected_row (x_poly y_poly : list R) (X_res Y_res : Z) (F_scale : R)
    (row : R * R * R) : R * R * R :=
  let '(x, y, level) := row in
  let Xdet := CIF_coord X_res 384 x in
  let Ydet := CIF_coord Y_res 288 y in
  (poly_value x_poly Xdet Ydet Xdet Ydet / F_scale,
   poly_value y_poly Xdet Ydet Ydet Xdet / F_scale,
   vignetting Xdet Ydet level).

(** Twelve zero coefficients. *)
Definition zero_poly : list R := repeat 0 12.

(** A clock that reads the epoch J2000.0 at every timestamp, and the
    timestamp of that epoch. *)
Definition J2000_clock (Y M D h m s ms : Z) (UT_corr : R) : R := 2451545.

Definition noon_2000 : timestamp := mkTime 2000 1 1 12 0 0 0.

(** An angle in degrees, a binary64 number, so small that 360 less it
    rounds to 360: [2^-60]. *)
Definition tiny_angle : R := / 2 ^ 60.

(** *** The magnitude law in the words of its contract *)

(** The angle in degrees between two directions given in degrees, by the
    spherical law of cosines. *)
Definition law_of_cosines_length (ra_beg ra_end dec_beg dec_end : R) : R :=
  degrees (acos (sin (radians dec_beg) * sin (radians dec_end)
                 + cos (radians dec_beg) * cos (radians dec_end)
                   * cos (radians ra_beg - radians ra_end))).

(** The magnitude of a positive level: the calibration line up to
    [log10(level) = 3.2] and the saturation line above. *)
Definition uncorrected_magnitude (mag_0 mag_lev level : R) : R :=
  if Rle_dec (log10 level) 3.2
  then mag_0 * log10 level + mag_lev
  else -20 * log10 level + 64.5.

(** The magnitude of a positive level at angular velocity [v]. *)
Definition spec_magnitude (v : xreal) (mag_0 mag_lev w_pix level : R) : xreal :=
  if xgtb v (Fin w_pix)
  then (Fin (uncorrected_magnitude mag_0 mag_lev level)
        - Fin 2.5 * xlog10 (v / Fin w_pix))%X
  else Fin (uncorrected_magnitude mag_0 mag_lev level).

(** What holds of the [(min_index, min_diff)] of the inner loop once the
    indices below [n] have been scanned, when the search started from index
    [hint], where [bh] is. *)
Definition scanned (points2 : list point) (point1 : point) (hint : nat) (bh : point)
    (n : nat) (st : nat * R) : Prop :=
  let '(mi, md) := st in
  (exists b, nth_error points2 mi = Some b /\ md = time_diff point1 b) /\
  (forall j b, (j < n)%nat -> nth_error points2 j = Some b -> md <= time_diff point1 b) /\
  (mi = hint \/
   ((mi < n)%nat /\ md < time_diff point1 bh /\
    forall j b, (j < mi)%nat -> nth_error points2 j = Some b -> md < time_diff point1 b)).

(** Two stations whose second point of station 1 is as far from both
    points of station 2, and a station paired with itself. *)
Definition tie_station1 : list point := [mkPoint 10 0 0 0; mkPoint 5 0 0 0].
Definition tie_station2 : list point := [mkPoint 0 0 0 0; mkPoint 10 0 0 0].
Definition twin_station : list point := [mkPoint 1 0 0 0; mkPoint 2 0 0 0].

(** ** Proof automation *)

(** Comparisons of absolute time differences between given points. *)
Ltac Rabs_lra :=
  unfold time_diff, Rabs in *; simpl in *;
  repeat match goal with
         | |- context [Rcase_abs ?x] => destruct (Rcase_abs x)
         | H : context [Rcase_abs ?x] |- _ => destruct (Rcase_abs x)
         end;
  lra.

Ltac decide_Rlt :=
  match goal with
  | |- context [Rlt_dec ?a ?b] =>
      destruct (Rlt_dec a b); [try (exfalso; Rabs_lra) | try (exfalso; Rabs_lra)]
  end.

(** * Properties *)

(** ** Outcomes and loops *)

Lemma index_lt {A : Type} (l : list A) (i : nat) :
  (i < length l)%nat -> exists a, index l i = Ok a /\ nth_error l i = Some a.
Proof.
  intro H. unfold index. destruct (nth_error l i) as [a|] eqn:E.
  - exists a. split; reflexivity.
  - apply nth_error_None in E. lia.
Qed.

(** ** The inner scan of the pairing *)

Section Scan.

Variable points2 : list point.
Variable point1 : point.
Variable hint : nat.
Variable bh : point.
Hypothesis hint_ok : nth_error points2 hint = Some bh.

Lemma scanned_start : scanned points2 point1 hint bh 0 (hint, time_diff point1 bh).
Proof.
  repeat split.
  - exists bh. split; [exact hint_ok | reflexivity].
  - intros j b Hj. lia.
  - left. reflexivity.
Qed.

Lemma scanned_le_hint n mi md :
  scanned points2 point1 hint bh n (mi, md) -> md <= time_diff point1 bh.
Proof.
  intros [[b [Hb Hmd]] [_ [Hh | [_ [Hlt _]]]]].
  - subst mi. rewrite hint_ok in Hb. inversion Hb. subst. lra.
  - lra.
Qed.

Lemma scanned_step n st b :
  nth_error points2 n = Some b ->
  scanned points2 point1 hint bh n st ->
  scanned points2 point1 hint bh (S n) (scan_step point1 st (n, b)).
Proof.
  destruct st as [mi md]. intros Hn Hinv.
  pose proof (scanned_le_hint _ _ _ Hinv) as Hle.
  destruct Hinv as [Hat [Hmin Htie]].
  unfold scan_step. destruct (Rlt_dec (time_diff point1 b) md) as [Hlt | Hge].
  - repeat split.
    + exists b. split; [exact Hn | reflexivity].
    + intros j b' Hj Hb'. destruct (Nat.eq_dec j n) as [-> | Hne].
      * rewrite Hn in Hb'. inversion Hb'. lra.
      * assert (md <= time_diff point1 b') by (apply (Hmin j); [lia | exact Hb']). lra.
    + right. repeat split.
      * lia.
      * lra.
      * intros j b' Hj Hb'.
        assert (md <= time_diff point1 b') by (apply (Hmin j); [lia | exact Hb']). lra.
  - repeat split.
    + exact Hat.
    + intros j b' Hj Hb'. destruct (Nat.eq_dec j n) as [-> | Hne].
      * rewrite Hn in Hb'. inversion Hb'. subst. lra.
      * apply (Hmin j); [lia | exact Hb'].
    + destruct Htie as [Hh | [Hlt [Hd Hfirst]]].
      * left. exact Hh.
      * right. repeat split; [lia | exact Hd | exact Hfirst].
Qed.

Lemma scanned_fold (suf : list point) :
  forall (pre : list point) (st : nat * R),
    points2 = pre ++ suf ->
    scanned points2 point1 hint bh (length pre) st ->
    scanned points2 point1 hint bh (length points2)
      (fold_left (scan_step point1) (combine (seq (length pre) (length suf)) suf) st).
Proof.
  induction suf as [| b suf IH]; intros pre st Heq Hinv.
  - simpl.
    assert (E : length points2 = length pre) by (rewrite Heq, app_nil_r; reflexivity).
    rewrite E. exact Hinv.
  - simpl. specialize (IH (pre ++ [b]) (scan_step point1 st (length pre, b))).
    rewrite length_app in IH. simpl in IH. rewrite Nat.add_1_r in IH.
    apply IH.
    + rewrite <- app_assoc. exact Heq.
    + apply scanned_step; [| exact Hinv].
      rewrite Heq, nth_error_app2 by lia. rewrite Nat.sub_diag. reflexivity.
Qed.

Lemma scanned_all :
  scanned points2 point1 hint bh (length points2)
    (fold_left (scan_step point1) (enumerate points2) (hint, time_diff point1 bh)).
Proof.
  apply (scanned_fold points2 []); [reflexivity | exact scanned_start].
Qed.

End Scan.

(** ** The pairing *)

(** The search from a valid hint: the index it ends on. *)
Lemma closest_spec (points2 : list point) (hint : nat) (bh p : point) :
  nth_error points2 hint = Some bh ->
  exists k bk,
    closest points2 hint p = Ok (k, time_diff p bk) /\
    nth_error points2 k = Some bk /\
    attains_minimum points2 p k /\
    (k = hint \/ (time_diff p bk < time_diff p bh /\ first_minimiser points2 p k)).
Proof.
  intro Hh. unfold closest, index. rewrite Hh. simpl.
  pose proof (scanned_all points2 p hint bh Hh) as Hinv.
  destruct (fold_left (scan_step p) (enumerate points2) (hint, time_diff p bh)) as [k md].
  destruct Hinv as [[bk [Hk Hmd]] [Hmin Htie]]. subst md.
  assert (Hatt : attains_minimum points2 p k).
  { exists bk. split; [exact Hk |]. intros b Hb.
    destruct (In_nth_error _ _ Hb) as [j Hj].
    apply (Hmin j); [| exact Hj]. apply nth_error_Some. rewrite Hj. discriminate. }
  exists k, bk. repeat split; try assumption.
  destruct Htie as [-> | [_ [Hlt Hfirst]]]; [left; reflexivity | right].
  split; [exact Hlt |]. split; [exact Hatt |].
  intros j bj bk' Hj Hbj Hbk'. rewrite Hk in Hbk'. inversion Hbk'. subst bk'.
  apply (Hfirst j); assumption.
Qed.

Lemma min_time_diff_le (p b : point) (l : list point) :
  In b l -> min_time_diff p l <= time_diff p b.
Proof.
  destruct l as [| b0 rest]; [intros [] |].
  unfold min_time_diff.
  assert (G : forall (l' : list point) (m : R),
             fold_left Rmin (map (time_diff p) l') m <= m /\
             forall b', In b' l' -> fold_left Rmin (map (time_diff p) l') m <= time_diff p b').
  { induction l' as [| c l' IH]; intro m; simpl.
    - split; [lra | intros b' []].
    - destruct (IH (Rmin m (time_diff p c))) as [H1 H2]. split.
      + pose proof (Rmin_l m (time_diff p c)). lra.
      + intros b' [<- | Hin]; [| apply H2; exact Hin].
        pose proof (Rmin_r m (time_diff p c)). lra. }
  destruct (G rest (time_diff p b0)) as [H1 H2].
  intros [<- | Hin]; [exact H1 | apply H2; exact Hin].
Qed.

Lemma min_time_diff_in (p : point) (l : list point) :
  l <> [] -> exists b, In b l /\ min_time_diff p l = time_diff p b.
Proof.
  destruct l as [| b0 rest]; [congruence | intros _].
  unfold min_time_diff.
  assert (G : forall (l' : list point) (m : R),
             fold_left Rmin (map (time_diff p) l') m = m \/
             exists b', In b' l' /\ fold_left Rmin (map (time_diff p) l') m = time_diff p b').
  { induction l' as [| c l' IH]; intro m; simpl.
    - left. reflexivity.
    - destruct (IH (Rmin m (time_diff p c))) as [H | [b' [Hin H]]].
      + rewrite H. unfold Rmin. destruct (Rle_dec m (time_diff p c)).
        * left. reflexivity.
        * right. exists c. split; [left; reflexivity | reflexivity].
      + right. exists b'. split; [right; exact Hin | exact H]. }
  destruct (G rest (time_diff p b0)) as [H | [b' [Hin H]]].
  - exists b0. split; [left; reflexivity | exact H].
  - exists b'. split; [right; exact Hin | exact H].
Qed.

Lemma attains_minimum_min_time_diff (points2 : list point) (p : point) (k : nat) (bk : point) :
  nth_error points2 k = Some bk ->
  attains_minimum points2 p k -> time_diff p bk = min_time_diff p points2.
Proof.
  intros Hk [bk' [Hk' Hmin]]. rewrite Hk in Hk'. inversion Hk'. subst bk'.
  assert (Hin : In bk points2) by (eapply nth_error_In; exact Hk).
  assert (Hne : points2 <> []) by (intro E; rewrite E in Hin; exact Hin).
  destruct (min_time_diff_in p points2 Hne) as [b [Hb E]].
  pose proof (Hmin b Hb). pose proof (min_time_diff_le p bk points2 Hin). lra.
Qed.

(** One iteration of the outer loop from a valid hint. *)
Lemma pair_step_spec (points2 : list point) (max_dt : R) (hint : nat)
    (pairs : list (point * point)) (p : point) :
  (hint < length points2)%nat ->
  exists k bk,
    nth_error points2 k = Some bk /\
    time_diff p bk = min_time_diff p points2 /\
    pair_step points2 max_dt (hint, pairs) p =
      Ok (k, if Rltb (min_time_diff p points2) max_dt then pairs ++ [(p, bk)] else pairs).
Proof.
  intro Hh. destruct (index_lt points2 hint Hh) as [bh [_ Hbh]].
  destruct (closest_spec points2 hint bh p Hbh) as [k [bk [Hc [Hk [Hatt _]]]]].
  exists k, bk. split; [exact Hk |].
  pose proof (attains_minimum_min_time_diff _ _ _ _ Hk Hatt) as Hmin.
  split; [exact Hmin |].
  unfold pair_step. rewrite Hc. simpl. rewrite Hmin. unfold Rltb.
  destruct (Rlt_dec (min_time_diff p points2) max_dt); [| reflexivity].
  unfold index. rewrite Hk. reflexivity.
Qed.

(** The outer loop from a valid hint: the pairs it appends. *)
Lemma pair_loop_spec (points2 : list point) (max_dt : R) (points1 : list point) :
  forall (hint : nat) (pairs : list (point * point)),
    (hint < length points2)%nat ->
    exists k new,
      foldM (pair_step points2 max_dt) points1 (hint, pairs) = Ok (k, pairs ++ new) /\
      (k < length points2)%nat /\
      map fst new = filter (fun a => Rltb (min_time_diff a points2) max_dt) points1 /\
      forall a b, In (a, b) new ->
        In b points2 /\ time_diff a b = min_time_diff a points2.
Proof.
  induction points1 as [| p points1 IH]; intros hint pairs Hh.
  - exists hint, []. simpl. rewrite app_nil_r.
    split; [reflexivity |]. split; [exact Hh |]. split; [reflexivity |].
    intros a b [].
  - destruct (pair_step_spec points2 max_dt hint pairs p Hh) as [k [bk [Hk [Hmin Hstep]]]].
    assert (Hklt : (k < length points2)%nat)
      by (apply nth_error_Some; rewrite Hk; discriminate).
    cbn [foldM]. rewrite Hstep. cbn [bind].
    destruct (IH k (if Rltb (min_time_diff p points2) max_dt
                    then pairs ++ [(p, bk)] else pairs) Hklt)
      as [k' [new [Hfold [Hk' [Hmap Hnew]]]]].
    rewrite Hfold.
    destruct (Rltb (min_time_diff p points2) max_dt) eqn:Hb.
    + exists k', ((p, bk) :: new). rewrite <- app_assoc. simpl.
      split; [reflexivity |]. split; [exact Hk' |]. split; [rewrite Hb, Hmap; reflexivity |].
      intros a b [H | H]; [| exact (Hnew a b H)].
      inversion H; subst. split; [eapply nth_error_In; exact Hk | exact Hmin].
    + exists k', new.
      split; [reflexivity |]. split; [exact Hk' |].
      split; [simpl; rewrite Hb; exact Hmap | exact Hnew].
Qed.

Lemma pairing_hint_valid (points1 points2 : list point) (max_dt : R) (hint : nat)
    (pairs : list (point * point)) :
  points2 <> [] ->
  foldM (pair_step points2 max_dt) points1 (0%nat, []) = Ok (hint, pairs) ->
  (hint < length points2)%nat.
Proof.
  intros Hne Hfold.
  assert (H0 : (0 < length points2)%nat) by (destruct points2; [congruence | simpl; lia]).
  destruct (pair_loop_spec points2 max_dt points1 0%nat [] H0) as [k [new [Hf [Hk _]]]].
  rewrite Hf in Hfold. inversion Hfold. subst. exact Hk.
Qed.

(** C6, amended.  For every point [a] of station 1, reached after the points
    [points1] before it, the search scans all of station 2 and ends on an
    index [k] whose point is as close in time to [a] as any point of
    station 2; the index need not grow from one point to the next.  Among
    several closest points the one at the starting hint (the index found for
    the previous point, 0 for the first) is kept when it is one of them, and
    otherwise the one of smallest index is taken.  That point is the one
    paired with [a]. *)
Theorem pairing_selects_minimum_hint_first (points1 points2 : list point) (a : point)
    (max_dt : R) (hint : nat) (pairs : list (point * point)) :
  points2 <> [] ->
  foldM (pair_step points2 max_dt) points1 (0%nat, []) = Ok (hint, pairs) ->
  exists k bk,
    closest points2 hint a = Ok (k, time_diff a bk) /\
    nth_error points2 k = Some bk /\
    attains_minimum points2 a k /\
    (k = hint \/ (~ attains_minimum points2 a hint /\ first_minimiser points2 a k)) /\
    pair_step points2 max_dt (hint, pairs) a =
      Ok (k, if Rltb (time_diff a bk) max_dt then pairs ++ [(a, bk)] else pairs).
Proof.
  intros Hne Hfold.
  pose proof (pairing_hint_valid _ _ _ _ _ Hne Hfold) as Hh.
  destruct (index_lt points2 hint Hh) as [bh [_ Hbh]].
  destruct (closest_spec points2 hint bh a Hbh) as [k [bk [Hc [Hk [Hatt Htie]]]]].
  exists k, bk. repeat split; try assumption.
  - destruct Htie as [E | [Hlt Hfirst]]; [left; exact E | right].
    split; [| exact Hfirst].
    intros [bh' [Hbh' Hmin]]. rewrite Hbh in Hbh'. inversion Hbh'. subst bh'.
    assert (Hin : In bk points2) by (eapply nth_error_In; exact Hk).
    pose proof (Hmin bk Hin). lra.
  - unfold pair_step. rewrite Hc. cbn [bind]. unfold Rltb.
    destruct (Rlt_dec (time_diff a bk) max_dt); [| reflexivity].
    unfold index. rewrite Hk. reflexivity.
Qed.

(** The search for the second point of [tie_station1], from the hint 1 that
    the first point leaves. *)
Lemma pairing_selects_minimum_hint_first_witness :
  exists k bk,
    closest tie_station2 1 (mkPoint 5 0 0 0) = Ok (k, time_diff (mkPoint 5 0 0 0) bk) /\
    nth_error tie_station2 k = Some bk /\
    attains_minimum tie_station2 (mkPoint 5 0 0 0) k.
Proof.
  assert (Hne : tie_station2 <> []) by discriminate.
  assert (Hfold : foldM (pair_step tie_station2 10) [mkPoint 10 0 0 0] (0%nat, [])
                  = Ok (1%nat, [(mkPoint 10 0 0 0, mkPoint 10 0 0 0)])).
  { unfold tie_station2, pair_step, closest, index, enumerate, scan_step. simpl.
    repeat (decide_Rlt; simpl). reflexivity. }
  destruct (pairing_selects_minimum_hint_first
              [mkPoint 10 0 0 0] tie_station2 (mkPoint 5 0 0 0) 10 1
              [(mkPoint 10 0 0 0, mkPoint 10 0 0 0)] Hne Hfold)
    as [k [bk [H1 [H2 [H3 _]]]]].
  exists k, bk. repeat split; assumption.
Defined.

(** C6 as stated fails.  The second point of [tie_station1], at time 5, is
    as far from both points of [tie_station2], at times 0 and 10; it is
    paired with the point of index 1, where the search for the first point
    ended, so index 1 is chosen although index 0 attains the minimum too. *)
Lemma pairing_tie_keeps_hint :
  findPointTimePairs tie_station1 tie_station2 864000
  = Ok [(mkPoint 10 0 0 0, mkPoint 10 0 0 0); (mkPoint 5 0 0 0, mkPoint 10 0 0 0)] /\
  ~ first_minimiser tie_station2 (mkPoint 5 0 0 0) 1.
Proof.
  split.
  - unfold findPointTimePairs, tie_station1, tie_station2, pair_step, closest, index,
      enumerate, scan_step. simpl.
    repeat (decide_Rlt; simpl). reflexivity.
  - intros [_ Hfirst].
    specialize (Hfirst 0%nat (mkPoint 0 0 0 0) (mkPoint 10 0 0 0)).
    simpl in Hfirst. specialize (Hfirst ltac:(lia) eq_refl eq_refl).
    Rabs_lra.
Qed.

Lemma filter_all {A : Type} (f : A -> bool) (l : list A) :
  (forall a, In a l -> f a = true) -> filter f l = l.
Proof.
  induction l as [| a l IH]; intro H; simpl; [reflexivity |].
  rewrite (H a) by (left; reflexivity). f_equal. apply IH.
  intros b Hb. apply H. right. exact Hb.
Qed.

Lemma min_time_diff_twin (a : point) (points2 : list point) :
  (exists b, In b points2 /\ jd b = jd a) -> min_time_diff a points2 = 0.
Proof.
  intros [b [Hb Hjd]].
  pose proof (min_time_diff_le a b points2 Hb) as Hle.
  assert (Hne : points2 <> []) by (intro E; rewrite E in Hb; exact Hb).
  destruct (min_time_diff_in a points2 Hne) as [b' [_ E]].
  assert (H0 : time_diff a b = 0).
  { unfold time_diff. rewrite Hjd. unfold Rminus. rewrite Rplus_opp_r. apply Rabs_R0. }
  assert (0 <= time_diff a b') by apply Rabs_pos.
  lra.
Qed.

(** The pairing against a station that has a point. *)
Lemma pairing_against_nonempty (points1 points2 : list point) (max_dt : R) :
  points2 <> [] ->
  exists pairs,
    findPointTimePairs points1 points2 max_dt = Ok pairs /\
    map fst pairs
    = filter (fun a => Rltb (min_time_diff a points2) (max_dt / 86400)) points1 /\
    (forall a b, In (a, b) pairs ->
       In b points2 /\ time_diff a b = min_time_diff a points2).
Proof.
  intro Hne.
  assert (H0 : (0 < length points2)%nat) by (destruct points2; [congruence | simpl; lia]).
  assert (Hdt : max_dt / 60 / 60 / 24 = max_dt / 86400) by lra.
  destruct (pair_loop_spec points2 (max_dt / 60 / 60 / 24) points1 0%nat [] H0)
    as [k [new [Hf [_ [Hmap Hnew]]]]].
  exists new. unfold findPointTimePairs. rewrite Hf. cbn [bind app].
  rewrite Hdt in Hmap.
  split; [reflexivity |]. split; [exact Hmap | exact Hnew].
Qed.

(** C7.  Unless station 1 has a point and station 2 has none, the pairing
    returns without error the points of station 1 whose least absolute time
    difference to station 2 is strictly below [max_dt / 86400], in their
    order, each with a point of station 2 at that least difference, and the
    other points of station 1 are left out.  When [max_dt] is positive and
    every point of station 1 has a point of station 2 at the same time,
    there is exactly one pair per point of station 1, in the order of
    station 1, each at time difference 0. *)
Theorem pairing_emits_iff_within_threshold (points1 points2 : list point) (max_dt : R) :
  points1 = [] \/ points2 <> [] ->
  exists pairs,
    findPointTimePairs points1 points2 max_dt = Ok pairs /\
    map fst pairs
    = filter (fun a => Rltb (min_time_diff a points2) (max_dt / 86400)) points1 /\
    (forall a b, In (a, b) pairs ->
       In b points2 /\ time_diff a b = min_time_diff a points2) /\
    (0 < max_dt ->
     (forall a, In a points1 -> exists b, In b points2 /\ jd b = jd a) ->
     map fst pairs = points1 /\
     forall a b, In (a, b) pairs -> time_diff a b = 0).
Proof.
  intros [Hempty | Hne].
  - subst points1. exists []. split; [reflexivity |]. split; [reflexivity |].
    split; [intros a b [] |]. intros _ _. split; [reflexivity | intros a b []].
  - destruct (pairing_against_nonempty points1 points2 max_dt Hne)
      as [pairs [Hrun [Hmap Hpairs]]].
    exists pairs. split; [exact Hrun |]. split; [exact Hmap |]. split; [exact Hpairs |].
    intros Hpos Htwin.
    assert (Hall : map fst pairs = points1).
    { rewrite Hmap. apply filter_all. intros a Ha.
      rewrite (min_time_diff_twin a points2 (Htwin a Ha)).
      unfold Rltb. destruct (Rlt_dec 0 (max_dt / 86400)); [reflexivity | lra]. }
    split; [exact Hall |].
    intros a b Hab. destruct (Hpairs a b Hab) as [_ E]. rewrite E.
    apply min_time_diff_twin. apply Htwin. rewrite <- Hall.
    change a with (fst (a, b)). apply in_map. exact Hab.
Qed.

(** A station paired with itself, within 2 seconds. *)
Lemma pairing_emits_iff_within_threshold_witness :
  exists pairs,
    findPointTimePairs twin_station twin_station 2 = Ok pairs /\
    map fst pairs = twin_station /\
    forall a b, In (a, b) pairs -> time_diff a b = 0.
Proof.
  assert (Hne : twin_station = [] \/ twin_station <> []) by (right; discriminate).
  destruct (pairing_emits_iff_within_threshold twin_station twin_station 2 Hne)
    as [pairs [H1 [_ [_ H4]]]].
  exists pairs. split; [exact H1 |]. apply H4; [lra |].
  intros a Ha. exists a. split; [exact Ha | reflexivity].
Defined.

(** C10.  When station 1 has a point and station 2 has none, the pairing
    raises an index error, at the read of the point of station 2 at the
    starting hint; it does not return an empty list of pairs. *)
Theorem pairing_empty_station2_raises (points1 : list point) (max_dt : R) :
  points1 <> [] ->
  findPointTimePairs points1 [] max_dt = Raise IndexError /\
  findPointTimePairs points1 [] max_dt <> Ok [].
Proof.
  intro Hne. destruct points1 as [| p rest]; [congruence |].
  assert (E : findPointTimePairs (p :: rest) [] max_dt = Raise IndexError) by reflexivity.
  split; [exact E | rewrite E; discriminate].
Qed.

(** A station of two points against a station without points. *)
Lemma pairing_empty_station2_raises_witness :
  findPointTimePairs twin_station [] 2 = Raise IndexError /\
  findPointTimePairs twin_station [] 2 <> Ok [].
Proof.
  apply (pairing_empty_station2_raises twin_station 2). discriminate.
Defined.

(** ** The corrector *)

Lemma mapM_length {A B : Type} (f : A -> outcome B) (l : list A) :
  forall out, mapM f l = Ok out -> length out = length l.
Proof.
  induction l as [| a l IH]; intros out H; simpl in H.
  - inversion H. reflexivity.
  - destruct (f a) as [b | e |]; simpl in H; try discriminate.
    destruct (mapM f l) as [bs | e |]; simpl in H; try discriminate.
    inversion H. simpl. f_equal. apply IH. reflexivity.
Qed.

Lemma mapM_Ok_map {A B : Type} (f : A -> outcome B) (g : A -> B) (l : list A) :
  (forall a, In a l -> f a = Ok (g a)) -> mapM f l = Ok (map g l).
Proof.
  induction l as [| a l IH]; intro H; simpl; [reflexivity |].
  rewrite (H a) by (left; reflexivity). simpl.
  rewrite IH by (intros b Hb; apply H; right; exact Hb). reflexivity.
Qed.

Lemma mapM_Raise_head {A B : Type} (f : A -> outcome B) (a : A) (l : list A) (e : exn) :
  f a = Raise e -> mapM f (a :: l) = Raise e.
Proof. intro H. simpl. rewrite H. reflexivity. Qed.

Lemma np_div_Ok (x y : R) : y <> 0 -> np_div x y = Ok (x / y).
Proof. intro H. unfold np_div. destruct (Req_dec_T y 0); [contradiction | reflexivity]. Qed.

Lemma to_CIF_Ok (res : Z) (cif det : R) :
  res <> 0%Z -> cif <> 0 -> to_CIF res cif det = Ok (CIF_coord res cif det).
Proof.
  intros Hres Hcif. unfold to_CIF. apply np_div_Ok.
  assert (IZR res <> 0) by (apply not_0_IZR; exact Hres).
  unfold Rdiv. apply Rmult_integral_contrapositive_currified; [assumption |].
  apply Rinv_neq_0_compat. exact Hcif.
Qed.

Lemma index_nth (poly : list R) (k : nat) :
  (k < length poly)%nat -> index poly k = Ok (nth k poly 0).
Proof.
  intro H. unfold index. rewrite (nth_error_nth' poly 0 H). reflexivity.
Qed.

Lemma distortion_Ok (poly : list R) (Xdet Ydet a b : R) :
  (12 <= length poly)%nat ->
  distortion poly Xdet Ydet a b = Ok (poly_value poly Xdet Ydet a b).
Proof.
  intro H. unfold distortion.
  rewrite !index_nth by lia. reflexivity.
Qed.

Lemma distortion_short (poly : list R) (Xdet Ydet a b : R) :
  (length poly < 12)%nat -> distortion poly Xdet Ydet a b = Raise IndexError.
Proof.
  intro H. unfold distortion, index.
  do 12 (destruct poly as [| ? poly]; [reflexivity | simpl in H |- *]).
  lia.
Qed.

Lemma poly_value_app (poly more : list R) (Xdet Ydet a b : R) :
  (12 <= length poly)%nat ->
  poly_value (poly ++ more) Xdet Ydet a b = poly_value poly Xdet Ydet a b.
Proof.
  intro H. unfold poly_value. rewrite !app_nth1 by lia. reflexivity.
Qed.

(** The loop body of the corrector where it returns. *)
Lemma correct_point_Ok (x_poly y_poly : list R) (X_res Y_res : Z) (F_scale : R)
    (row : R * R * R) :
  (12 <= length x_poly)%nat -> (12 <= length y_poly)%nat ->
  X_res <> 0%Z -> Y_res <> 0%Z -> F_scale <> 0 ->
  correct_point x_poly y_poly X_res Y_res F_scale row
  = Ok (corrected_row x_poly y_poly X_res Y_res F_scale row).
Proof.
  intros Hx Hy HX HY HF. destruct row as [[x y] level]. unfold correct_point.
  rewrite !to_CIF_Ok by (assumption || lra). cbn [bind].
  rewrite !distortion_Ok by assumption. cbn [bind].
  rewrite !np_div_Ok by assumption. reflexivity.
Qed.

(** The level that the loop body returns, whenever it returns. *)
Lemma correct_point_level (x_poly y_poly : list R) (X_res Y_res : Z)
    (F_scale x y level X Y L : R) :
  correct_point x_poly y_poly X_res Y_res F_scale (x, y, level) = Ok (X, Y, L) ->
  L = vignetting (CIF_coord X_res 384 x) (CIF_coord Y_res 288 y) level.
Proof.
  unfold correct_point, to_CIF, np_div. fold (CIF_coord X_res 384 x) (CIF_coord Y_res 288 y).
  destruct (Req_dec_T (IZR X_res / 384) 0); [discriminate |].
  destruct (Req_dec_T (IZR Y_res / 288) 0); [discriminate |]. cbn [bind].
  destruct (distortion x_poly _ _ _ _); cbn [bind]; try discriminate.
  destruct (distortion y_poly _ _ _ _); cbn [bind]; try discriminate.
  destruct (Req_dec_T F_scale 0); cbn [bind]; [discriminate |].
  intro H. inversion H. reflexivity.
Qed.

Lemma vstack3_Ok (a b c : list R) :
  length a = length b -> length b = length c ->
  vstack3 a b c = Ok (combine (combine a b) c).
Proof.
  intros H1 H2. unfold vstack3. rewrite H1, H2, !Nat.eqb_refl. reflexivity.
Qed.

Lemma vstack3_inv (a b c : list R) (m : list (R * R * R)) :
  vstack3 a b c = Ok m ->
  length a = length b /\ length b = length c /\ m = combine (combine a b) c /\
  length m = length a.
Proof.
  unfold vstack3.
  destruct (Nat.eqb (length a) (length b)) eqn:E1; [| discriminate].
  destruct (Nat.eqb (length b) (length c)) eqn:E2; [| discriminate].
  apply Nat.eqb_eq in E1. apply Nat.eqb_eq in E2. simpl. intro H. inversion H.
  repeat split; try assumption. rewrite !length_combine. lia.
Qed.

(** The corrector keeps the number of points. *)
Lemma applyFieldCorrection_length (x_poly y_poly : list R) (X_res Y_res : Z) (F_scale : R)
    (X_data Y_data level_data Xc Yc Lc : list R) :
  applyFieldCorrection x_poly y_poly X_res Y_res F_scale X_data Y_data level_data
  = Ok (Xc, Yc, Lc) ->
  length Xc = length X_data /\ length Yc = length X_data /\ length Lc = length X_data.
Proof.
  unfold applyFieldCorrection.
  destruct (vstack3 X_data Y_data level_data) as [m | e |] eqn:Ev; cbn [bind]; try discriminate.
  destruct (mapM _ m) as [out | e |] eqn:Em; cbn [bind]; try discriminate.
  intro H. inversion H. subst.
  apply mapM_length in Em. apply vstack3_inv in Ev. destruct Ev as [_ [_ [_ Hm]]].
  rewrite !length_map. lia.
Qed.

(** The corrector returns for every calibration with twelve coefficients
    or more and non-zero resolutions and scale. *)
Lemma applyFieldCorrection_Ok (x_poly y_poly : list R) (X_res Y_res : Z) (F_scale : R)
    (X_data Y_data level_data : list R) :
  (12 <= length x_poly)%nat -> (12 <= length y_poly)%nat ->
  X_res <> 0%Z -> Y_res <> 0%Z -> F_scale <> 0 ->
  length X_data = length Y_data -> length Y_data = length level_data ->
  applyFieldCorrection x_poly y_poly X_res Y_res F_scale X_data Y_data level_data
  = Ok (unzip3 (map (corrected_row x_poly y_poly X_res Y_res F_scale)
                    (combine (combine X_data Y_data) level_data))).
Proof.
  intros Hx Hy HX HY HF H1 H2. unfold applyFieldCorrection.
  rewrite vstack3_Ok by assumption. cbn [bind].
  rewrite (mapM_Ok_map _ (corrected_row x_poly y_poly X_res Y_res F_scale)).
  - reflexivity.
  - intros row _. apply correct_point_Ok; assumption.
Qed.

(** *** The corrector at given points *)

Lemma lt_sqrt (a x : R) : 0 <= a -> a * a < x -> a < sqrt x.
Proof.
  intros Ha Hlt. rewrite <- (sqrt_square a Ha) at 1.
  apply sqrt_lt_1_alt. split; [nra | exact Hlt].
Qed.

Lemma poly_value_zero (Xdet Ydet a b : R) : poly_value zero_poly Xdet Ydet a b = a.
Proof. unfold poly_value, zero_poly. simpl. lra. Qed.

Lemma applyFieldCorrection_single (x_poly y_poly : list R) (X_res Y_res : Z)
    (F_scale x y level : R) :
  (12 <= length x_poly)%nat -> (12 <= length y_poly)%nat ->
  X_res <> 0%Z -> Y_res <> 0%Z -> F_scale <> 0 ->
  applyFieldCorrection x_poly y_poly X_res Y_res F_scale [x] [y] [level]
  = Ok ([poly_value x_poly (CIF_coord X_res 384 x) (CIF_coord Y_res 288 y)
           (CIF_coord X_res 384 x) (CIF_coord Y_res 288 y) / F_scale],
        [poly_value y_poly (CIF_coord X_res 384 x) (CIF_coord Y_res 288 y)
           (CIF_coord Y_res 288 y) (CIF_coord X_res 384 x) / F_scale],
        [vignetting (CIF_coord X_res 384 x) (CIF_coord Y_res 288 y) level]).
Proof.
  intros Hx Hy HX HY HF.
  rewrite applyFieldCorrection_Ok by (assumption || reflexivity). reflexivity.
Qed.

Lemma mapM_nth_error {A B : Type} (f : A -> outcome B) (l : list A) :
  forall (out : list B) (i : nat) (a : A) (b : B),
    mapM f l = Ok out -> nth_error l i = Some a -> nth_error out i = Some b ->
    f a = Ok b.
Proof.
  induction l as [| a0 l IH]; intros out i a b H Ha Hb.
  - destruct i; discriminate.
  - simpl in H. destruct (f a0) as [b0 | e |] eqn:E0; simpl in H; try discriminate.
    destruct (mapM f l) as [bs | e |] eqn:El; simpl in H; try discriminate.
    inversion H. subst out. destruct i as [| i]; simpl in Ha, Hb.
    + inversion Ha. inversion Hb. subst. exact E0.
    + apply (IH bs i a b eq_refl Ha Hb).
Qed.

Lemma nth_error_combine {A B : Type} (l : list A) (l' : list B) :
  forall (i : nat) (a : A) (b : B),
    nth_error l i = Some a -> nth_error l' i = Some b ->
    nth_error (combine l l') i = Some (a, b).
Proof.
  revert l'. induction l as [| a0 l IH]; intros l' i a b Ha Hb.
  - destruct i; discriminate.
  - destruct l' as [| b0 l']; [destruct i; discriminate |].
    destruct i as [| i]; simpl in *.
    + inversion Ha. inversion Hb. reflexivity.
    + apply IH; assumption.
Qed.

(** The level that the corrector returns for its point of index [i]. *)
Lemma applyFieldCorrection_level_at (x_poly y_poly : list R) (X_res Y_res : Z)
    (F_scale : R) (X_data Y_data level_data Xc Yc Lc : list R)
    (i : nat) (x y level L : R) :
  applyFieldCorrection x_poly y_poly X_res Y_res F_scale X_data Y_data level_data
  = Ok (Xc, Yc, Lc) ->
  nth_error X_data i = Some x -> nth_error Y_data i = Some y ->
  nth_error level_data i = Some level -> nth_error Lc i = Some L ->
  L = vignetting (CIF_coord X_res 384 x) (CIF_coord Y_res 288 y) level.
Proof.
  unfold applyFieldCorrection. intros H Hx Hy Hl HL.
  destruct (vstack3 X_data Y_data level_data) as [m | e |] eqn:Ev; cbn [bind] in H;
    try discriminate.
  destruct (mapM _ m) as [out | e |] eqn:Em; cbn [bind] in H; try discriminate.
  apply vstack3_inv in Ev. destruct Ev as [_ [_ [Hm _]]]. subst m.
  unfold unzip3 in H. inversion H. subst Xc Yc Lc.
  rewrite nth_error_map in HL.
  destruct (nth_error out i) as [[[X Y] L'] |] eqn:Eo; simpl in HL; [| discriminate].
  inversion HL. subst L'.
  pose proof (nth_error_combine _ _ i _ _ (nth_error_combine _ _ i _ _ Hx Hy) Hl) as Hrow.
  apply (correct_point_level x_poly y_poly X_res Y_res F_scale x y level X Y L).
  apply (mapM_nth_error _ _ _ i _ _ Em Hrow Eo).
Qed.

Lemma vignetting_outside (Xdet Ydet level : R) :
  120 < vignetting_radius Xdet Ydet ->
  vignetting Xdet Ydet level = level * (1 + 0.00245 * (vignetting_radius Xdet Ydet - 120)).
Proof.
  intro H. unfold vignetting.
  destruct (Rlt_dec 120 (vignetting_radius Xdet Ydet)); [reflexivity | contradiction].
Qed.

Lemma vignetting_increasing (X1 Y1 X2 Y2 level : R) :
  0 < level ->
  120 < vignetting_radius X1 Y1 ->
  vignetting_radius X1 Y1 < vignetting_radius X2 Y2 ->
  vignetting X1 Y1 level < vignetting X2 Y2 level.
Proof.
  intros Hl H1 H2. rewrite !vignetting_outside by lra. nra.
Qed.

(** The image centre of a 720 x 576 camera, and two points of a 384 x 288
    camera, in CIF coordinates. *)
Lemma CIF_centre_x : CIF_coord 720 384 360 = 0.
Proof. unfold CIF_coord. change (720 / 2)%Z with 360%Z. lra. Qed.

Lemma CIF_centre_y : CIF_coord 576 288 288 = 0.
Proof. unfold CIF_coord. change (576 / 2)%Z with 288%Z. lra. Qed.

Lemma CIF_384_192 : CIF_coord 384 384 192 = 0.
Proof. unfold CIF_coord. change (384 / 2)%Z with 192%Z. lra. Qed.

Lemma CIF_384_191 : CIF_coord 384 384 191 = -1.
Proof. unfold CIF_coord. change (384 / 2)%Z with 192%Z. lra. Qed.

Lemma CIF_288_144 : CIF_coord 288 288 144 = 0.
Proof. unfold CIF_coord. change (288 / 2)%Z with 144%Z. lra. Qed.

Lemma radius_at_origin : vignetting_radius 0 0 = sqrt 73728.
Proof. unfold vignetting_radius. f_equal. lra. Qed.

Lemma radius_left_of_origin : vignetting_radius (-1) 0 = sqrt 74113.
Proof. unfold vignetting_radius. f_equal. lra. Qed.

Lemma sqrt_lt (a x : R) : 0 <= x -> 0 <= a -> x < a * a -> sqrt x < a.
Proof.
  intros Hx Ha Hlt. rewrite <- (sqrt_square a Ha).
  apply sqrt_lt_1_alt. split; [exact Hx | exact Hlt].
Qed.

Lemma sqrt_73728_bounds : 271.5 < sqrt 73728 < 271.6.
Proof. split; [apply lt_sqrt; lra | apply sqrt_lt; lra]. Qed.

Lemma sqrt_73728_74113 : sqrt 73728 < sqrt 74113.
Proof. apply sqrt_lt_1_alt. lra. Qed.

(** The corrector at the centre of a 720 x 576 image, for any non-zero
    scale: no offset, and a level raised by the vignetting correction. *)
Lemma centre_corrected (x_poly y_poly : list R) (F_scale level : R) :
  (12 <= length x_poly)%nat -> (12 <= length y_poly)%nat -> F_scale <> 0 ->
  poly_value x_poly 0 0 0 0 = 0 -> poly_value y_poly 0 0 0 0 = 0 ->
  applyFieldCorrection x_poly y_poly 720 576 F_scale [360] [288] [level]
  = Ok ([0], [0], [level * (1 + 0.00245 * (sqrt 73728 - 120))]).
Proof.
  intros Hx Hy HF Px Py.
  rewrite applyFieldCorrection_single by (assumption || discriminate).
  rewrite CIF_centre_x, CIF_centre_y, Px, Py.
  rewrite vignetting_outside by (rewrite radius_at_origin; pose proof sqrt_73728_bounds; lra).
  rewrite radius_at_origin.
  replace (0 / F_scale) with 0 by (field; exact HF). reflexivity.
Qed.

(** C1, amended.  With twelve zero coefficients on both axes, a 720 x 576
    image and scale 1.0, the corrector maps the point (360, 288, 100) at the
    image centre to [x_corr = 0], [y_corr = 0] and
    [level_corr = 100 * (1 + 0.00245 * (sqrt 73728 - 120))], between 137.1
    and 137.2: the vignetting radius is measured from (192, 192) in the centred
    CIF frame, so at the centre it is [sqrt 73728], beyond 120, and the
    vignetting correction is applied. *)
Theorem centre_point_corrected :
  applyFieldCorrection zero_poly zero_poly 720 576 1.0 [360] [288] [100]
  = Ok ([0], [0], [100 * (1 + 0.00245 * (sqrt 73728 - 120))]) /\
  CIF_radius 720 576 360 288 = sqrt 73728 /\
  120 < sqrt 73728 /\
  137.1 < 100 * (1 + 0.00245 * (sqrt 73728 - 120)) < 137.2.
Proof.
  pose proof sqrt_73728_bounds as Hs.
  split; [| split; [| split]].
  - apply centre_corrected; try (rewrite poly_value_zero; reflexivity);
      try (unfold zero_poly; simpl; lia); lra.
  - unfold CIF_radius. rewrite CIF_centre_x, CIF_centre_y. apply radius_at_origin.
  - lra.
  - lra.
Qed.

(** C1 as stated fails: the corrector does not return the level 100 at the
    image centre. *)
Lemma centre_point_level_not_100 :
  applyFieldCorrection zero_poly zero_poly 720 576 1.0 [360] [288] [100]
  <> Ok ([0], [0], [100]).
Proof.
  rewrite centre_corrected; try (rewrite poly_value_zero; reflexivity);
    try (unfold zero_poly; simpl; lia); try lra.
  intro H. inversion H as [E]. pose proof sqrt_73728_bounds. lra.
Qed.

(** C9, amended.  For every fixed positive input level, of two detected
    points whose vignetting radii in the CIF frame exceed 120, in one run of
    the corrector or in two runs with the same calibration, the one of
    larger radius gets the strictly larger corrected level. *)
Theorem vignetting_strictly_increasing (x_poly y_poly : list R) (X_res Y_res : Z)
    (F_scale : R) (X1 Y1 V1 Xc1 Yc1 Lc1 X2 Y2 V2 Xc2 Yc2 Lc2 : list R)
    (i j : nat) (x1 y1 x2 y2 level L1 L2 : R) :
  applyFieldCorrection x_poly y_poly X_res Y_res F_scale X1 Y1 V1 = Ok (Xc1, Yc1, Lc1) ->
  applyFieldCorrection x_poly y_poly X_res Y_res F_scale X2 Y2 V2 = Ok (Xc2, Yc2, Lc2) ->
  nth_error X1 i = Some x1 -> nth_error Y1 i = Some y1 ->
  nth_error V1 i = Some level -> nth_error Lc1 i = Some L1 ->
  nth_error X2 j = Some x2 -> nth_error Y2 j = Some y2 ->
  nth_error V2 j = Some level -> nth_error Lc2 j = Some L2 ->
  0 < level ->
  120 < CIF_radius X_res Y_res x1 y1 ->
  CIF_radius X_res Y_res x1 y1 < CIF_radius X_res Y_res x2 y2 ->
  L1 < L2.
Proof.
  intros H1 H2 Hx1 Hy1 Hv1 HL1 Hx2 Hy2 Hv2 HL2 Hl Hr1 Hr2.
  rewrite (applyFieldCorrection_level_at _ _ _ _ _ _ _ _ _ _ _ i x1 y1 level L1
             H1 Hx1 Hy1 Hv1 HL1).
  rewrite (applyFieldCorrection_level_at _ _ _ _ _ _ _ _ _ _ _ j x2 y2 level L2
             H2 Hx2 Hy2 Hv2 HL2).
  apply vignetting_increasing; assumption.
Qed.

Lemma corrected_384_192 (level : R) :
  applyFieldCorrection zero_poly zero_poly 384 288 1 [192] [144] [level]
  = Ok ([0], [0], [level * (1 + 0.00245 * (sqrt 73728 - 120))]).
Proof.
  rewrite applyFieldCorrection_single;
    try (unfold zero_poly; simpl; lia); try discriminate; try lra.
  rewrite CIF_384_192, CIF_288_144, !poly_value_zero.
  rewrite vignetting_outside by (rewrite radius_at_origin; pose proof sqrt_73728_bounds; lra).
  rewrite radius_at_origin. replace (0 / 1) with 0 by lra. reflexivity.
Qed.

Lemma corrected_384_191 (level : R) :
  applyFieldCorrection zero_poly zero_poly 384 288 1 [191] [144] [level]
  = Ok ([-1], [0], [level * (1 + 0.00245 * (sqrt 74113 - 120))]).
Proof.
  rewrite applyFieldCorrection_single;
    try (unfold zero_poly; simpl; lia); try discriminate; try lra.
  rewrite CIF_384_191, CIF_288_144, !poly_value_zero.
  rewrite vignetting_outside
    by (rewrite radius_left_of_origin;
        pose proof sqrt_73728_bounds; pose proof sqrt_73728_74113; lra).
  rewrite radius_left_of_origin.
  replace (0 / 1) with 0 by lra. replace (-1 / 1) with (-1) by lra. reflexivity.
Qed.

Lemma radii_384 :
  120 < CIF_radius 384 288 192 144 /\
  CIF_radius 384 288 192 144 < CIF_radius 384 288 191 144.
Proof.
  unfold CIF_radius. rewrite CIF_384_192, CIF_384_191, CIF_288_144.
  rewrite radius_at_origin, radius_left_of_origin.
  pose proof sqrt_73728_bounds. pose proof sqrt_73728_74113. lra.
Qed.

(** The points (192, 144) and (191, 144) of a 384 x 288 image, at level
    100. *)
Lemma vignetting_strictly_increasing_witness :
  100 * (1 + 0.00245 * (sqrt 73728 - 120)) < 100 * (1 + 0.00245 * (sqrt 74113 - 120)).
Proof.
  apply (vignetting_strictly_increasing zero_poly zero_poly 384 288 1
           [192] [144] [100] [0] [0] [100 * (1 + 0.00245 * (sqrt 73728 - 120))]
           [191] [144] [100] [-1] [0] [100 * (1 + 0.00245 * (sqrt 74113 - 120))]
           0 0 192 144 191 144 100); try reflexivity.
  - apply corrected_384_192.
  - apply corrected_384_191.
  - lra.
  - apply radii_384.
  - apply radii_384.
Defined.

(** C9 as stated fails at the level 0: two points of radii beyond 120, the
    second further out than the first, both get the corrected level 0. *)
Lemma vignetting_constant_at_level_zero :
  applyFieldCorrection zero_poly zero_poly 384 288 1 [192] [144] [0] = Ok ([0], [0], [0]) /\
  applyFieldCorrection zero_poly zero_poly 384 288 1 [191] [144] [0] = Ok ([-1], [0], [0]) /\
  120 < CIF_radius 384 288 192 144 /\
  CIF_radius 384 288 192 144 < CIF_radius 384 288 191 144.
Proof.
  split; [| split; [| exact radii_384]].
  - rewrite corrected_384_192. rewrite Rmult_0_l. reflexivity.
  - rewrite corrected_384_191. rewrite Rmult_0_l. reflexivity.
Qed.

(** ** Angles *)

Lemma pymod_frac (x m : R) : m <> 0 -> pymod x m = m * frac_part (x / m).
Proof. intro H. unfold pymod, frac_part. field. exact H. Qed.

Lemma pymod_range (x m : R) : 0 < m -> 0 <= pymod x m < m.
Proof.
  intro Hm. rewrite pymod_frac by lra.
  destruct (base_fp (x / m)) as [H0 H1]. split; nra.
Qed.

Lemma pymod_small (x m : R) : 0 < m -> 0 <= x < m -> pymod x m = x.
Proof.
  intros Hm [H0 H1]. unfold pymod.
  assert (E : Int_part (x / m) = 0%Z).
  { symmetry. apply Int_part_spec. simpl.
    assert (Hi : 0 < / m) by (apply Rinv_0_lt_compat; lra).
    assert (Hr : m * / m = 1) by (apply Rinv_r; lra).
    unfold Rdiv. split; nra. }
  rewrite E. simpl. lra.
Qed.

(** *** The remainder on floats *)

Lemma ln_2_pos : 0 < ln 2.
Proof. pose proof ln_lt_2. lra. Qed.

Lemma ln_powerRZ_2 (e : Z) : ln (powerRZ 2 e) = IZR e * ln 2.
Proof.
  rewrite powerRZ_Rpower by lra. unfold Rpower. apply ln_exp.
Qed.

(** The exponent of a real between two successive powers of 2. *)
Lemma binade_spec (x : R) (e : Z) :
  powerRZ 2 e <= Rabs x < powerRZ 2 (e + 1) -> binade x = e.
Proof.
  intros [H1 H2]. unfold binade. symmetry. apply Int_part_spec.
  pose proof ln_2_pos as L2.
  assert (P : 0 < powerRZ 2 e) by (apply powerRZ_lt; lra).
  assert (Hlo : IZR e * ln 2 <= ln (Rabs x)).
  { rewrite <- ln_powerRZ_2. destruct H1 as [H1 | H1].
    - left. apply ln_increasing; assumption.
    - rewrite H1. right. reflexivity. }
  assert (Hhi : ln (Rabs x) < IZR (e + 1) * ln 2).
  { rewrite <- ln_powerRZ_2. apply ln_increasing; lra. }
  rewrite plus_IZR in Hhi.
  assert (E : ln (Rabs x) / ln 2 * ln 2 = ln (Rabs x)) by (field; lra).
  split; nra.
Qed.

(** A positive real below [2^(e+1)] has an exponent of at most [e]. *)
Lemma binade_le (x : R) (e : Z) : 0 < x < powerRZ 2 (e + 1) -> (binade x <= e)%Z.
Proof.
  intros [H0 H1]. unfold binade. rewrite Rabs_right by lra.
  pose proof ln_2_pos as L2.
  assert (Hhi : ln x < IZR (e + 1) * ln 2).
  { rewrite <- ln_powerRZ_2. apply ln_increasing; lra. }
  destruct (base_Int_part (ln x / ln 2)) as [Hb _].
  assert (E : ln x / ln 2 * ln 2 = ln x) by (field; lra).
  assert (Hlt : IZR (Int_part (ln x / ln 2)) < IZR (e + 1)) by nra.
  apply lt_IZR in Hlt. lia.
Qed.

Lemma powerRZ_2_nonneg (n : Z) : (0 <= n)%Z -> powerRZ 2 n = IZR (2 ^ n).
Proof.
  intro H. rewrite <- (Z2Nat.id n H), <- pow_powerRZ, pow_IZR. reflexivity.
Qed.

Lemma nearest_even_bounds (y : R) :
  (Int_part y <= nearest_even y <= Int_part y + 1)%Z.
Proof.
  unfold nearest_even.
  destruct (Rlt_dec _ _); [lia |]. destruct (Rlt_dec _ _); [lia |].
  destruct (Z.even _); lia.
Qed.

(** Rounding does not cross a binary64 number: a positive real below 360
    rounds to a number between 0 and 360. *)
Lemma round_double_range (y : R) : 0 < y < 360 -> 0 <= round_double y <= 360.
Proof.
  intros [H0 H1]. unfold round_double, ulp.
  set (k := (Z.max (binade y) (-1022) - 52)%Z).
  assert (He : (binade y <= 8)%Z).
  { apply binade_le. split; [exact H0 |]. simpl. lra. }
  assert (Hk : (0 <= - k)%Z) by lia.
  assert (Hu : 0 < powerRZ 2 k) by (apply powerRZ_lt; lra).
  assert (Hinv : powerRZ 2 k * IZR (2 ^ (- k)) = 1).
  { rewrite <- powerRZ_2_nonneg by exact Hk. rewrite <- powerRZ_add by lra.
    replace (k + - k)%Z with 0%Z by lia. reflexivity. }
  assert (HN : 0 < IZR (2 ^ (- k))) by nra.
  assert (Eq : y / powerRZ 2 k = y * IZR (2 ^ (- k))).
  { apply (Rmult_eq_reg_r (powerRZ 2 k)); [| lra].
    unfold Rdiv. rewrite Rmult_assoc, Rinv_l by lra. nra. }
  rewrite Eq.
  destruct (nearest_even_bounds (y * IZR (2 ^ (- k)))) as [Nlo Nhi].
  destruct (base_Int_part (y * IZR (2 ^ (- k)))) as [Ilo Ihi].
  assert (I0 : (0 <= Int_part (y * IZR (2 ^ (- k))))%Z).
  { assert (Hlt : IZR (-1) < IZR (Int_part (y * IZR (2 ^ (- k))))) by (simpl; nra).
    apply lt_IZR in Hlt. lia. }
  assert (I1 : (Int_part (y * IZR (2 ^ (- k))) < 360 * 2 ^ (- k))%Z).
  { apply lt_IZR. rewrite mult_IZR. nra. }
  split.
  - apply Rmult_le_pos; [apply IZR_le; lia | lra].
  - assert (Hle : IZR (nearest_even (y * IZR (2 ^ (- k)))) <= IZR (360 * 2 ^ (- k)))
      by (apply IZR_le; lia).
    rewrite mult_IZR in Hle.
    apply Rle_trans with (360 * IZR (2 ^ (- k)) * powerRZ 2 k); [| nra].
    apply Rmult_le_compat_r; lra.
Qed.

Lemma Int_part_small (r : R) : 0 <= r < 1 -> Int_part r = 0%Z.
Proof. intro H. symmetry. apply Int_part_spec. simpl. lra. Qed.

(** [fmod] keeps what is below the modulus in size. *)
Lemma fmod_small (x m : R) : 0 < m -> - m < x < m -> fmod x m = x.
Proof.
  intros Hm [H1 H2]. unfold fmod, towards_zero.
  assert (Hi : 0 < / m) by (apply Rinv_0_lt_compat; lra).
  assert (Hr : m * / m = 1) by (apply Rinv_r; lra).
  destruct (Rlt_dec (x / m) 0).
  - rewrite Int_part_small; [simpl; lra |]. unfold Rdiv in *. split; nra.
  - rewrite Int_part_small; [simpl; lra |]. unfold Rdiv in *. split; nra.
Qed.

(** [fmod] has the sign of its first argument and is smaller than the
    modulus. *)
Lemma fmod_range (x m : R) :
  0 < m -> (0 <= x -> 0 <= fmod x m < m) /\ (x < 0 -> - m < fmod x m <= 0).
Proof.
  intro Hm. unfold fmod, towards_zero.
  assert (Hi : 0 < / m) by (apply Rinv_0_lt_compat; lra).
  assert (Hr : m * / m = 1) by (apply Rinv_r; lra).
  split; intro Hx.
  - destruct (Rlt_dec (x / m) 0) as [Hq | Hq]; [unfold Rdiv in Hq; nra |].
    destruct (base_Int_part (x / m)) as [B1 B2].
    assert (E : x / m * m = x) by (field; lra). split; nra.
  - destruct (Rlt_dec (x / m) 0) as [Hq | Hq]; [| unfold Rdiv in Hq; nra].
    destruct (base_Int_part (- (x / m))) as [B1 B2]. rewrite opp_IZR.
    assert (E : x / m * m = x) by (field; lra). split; nra.
Qed.

(** On floats the remainder modulo 360 lies between 0 and 360, both ends
    included. *)
Lemma float_rem_range (x : R) : 0 <= float_rem x 360 <= 360.
Proof.
  unfold float_rem.
  destruct (fmod_range x 360) as [Hpos Hneg]; [lra |].
  destruct (Req_dec_T (fmod x 360) 0); [lra |].
  destruct (Rlt_dec (fmod x 360) 0) as [Hm | Hm];
    (destruct (Rlt_dec 360 0); [lra |]).
  - apply round_double_range.
    destruct (Rlt_dec x 0) as [Hx | Hx]; [specialize (Hneg Hx); lra |].
    assert (Hx' : 0 <= x) by lra. specialize (Hpos Hx'). lra.
  - destruct (Rlt_dec x 0) as [Hx | Hx]; [specialize (Hneg Hx); lra |].
    assert (Hx' : 0 <= x) by lra. specialize (Hpos Hx'). lra.
Qed.

(** What is already between 0 and the modulus is kept. *)
Lemma float_rem_small (x m : R) : 0 < m -> 0 <= x < m -> float_rem x m = x.
Proof.
  intros Hm [H0 H1]. unfold float_rem. rewrite fmod_small by lra.
  destruct (Req_dec_T x 0); [lra |].
  destruct (Rlt_dec x 0); [lra |]. destruct (Rlt_dec m 0); [lra | reflexivity].
Qed.

(** Just below 360 the binary64 numbers are [2^-44] apart: what is less than
    half of that below 360 rounds to 360. *)
Lemma round_double_below_360 (eps : R) :
  0 < eps < / 2 ^ 45 -> round_double (360 - eps) = 360.
Proof.
  intros [H0 H1].
  assert (P45 : 2 ^ 45 = 35184372088832) by lra.
  rewrite P45 in H1.
  assert (Hs : / 35184372088832 < 1) by lra.
  unfold round_double, ulp.
  rewrite (binade_spec (360 - eps) 8).
  2:{ rewrite Rabs_right by lra. simpl. lra. }
  replace (Z.max 8 (-1022) - 52)%Z with (-44)%Z by reflexivity.
  assert (Eu : powerRZ 2 (-44) = / 17592186044416).
  { simpl. f_equal. lra. }
  rewrite Eu.
  assert (Eq : (360 - eps) / / 17592186044416 = 6333186975989760 - eps * 17592186044416)
    by (field).
  rewrite Eq.
  assert (Hf : 0 < eps * 17592186044416 < 1 / 2) by lra.
  assert (Ei : Int_part (6333186975989760 - eps * 17592186044416) = 6333186975989759%Z).
  { symmetry. apply Int_part_spec. lra. }
  unfold nearest_even, frac_part. rewrite Ei.
  destruct (Rlt_dec _ (1 / 2)) as [Hlt | _]; [lra |].
  destruct (Rlt_dec (1 / 2) _) as [_ | Hn]; [| lra].
  replace (6333186975989759 + 1)%Z with 6333186975989760%Z by reflexivity.
  lra.
Qed.

(** On floats, the remainder modulo 360 of a negative number very near 0 is
    360 itself. *)
Lemma float_rem_reaches_360 (eps : R) :
  0 < eps < / 2 ^ 45 -> float_rem (- eps) 360 = 360.
Proof.
  intros [H0 H1].
  assert (P45 : 2 ^ 45 = 35184372088832) by lra.
  assert (Hs : eps < 1) by (rewrite P45 in H1; lra).
  unfold float_rem. rewrite fmod_small by lra.
  destruct (Req_dec_T (- eps) 0); [lra |].
  destruct (Rlt_dec (- eps) 0); [| lra]. destruct (Rlt_dec 360 0); [lra |].
  replace (- eps + 360) with (360 - eps) by lra.
  apply round_double_below_360. split; assumption.
Qed.

Lemma degrees_bound (x : R) : - (PI / 2) <= x <= PI / 2 -> -90 <= degrees x <= 90.
Proof.
  intros [H1 H2]. unfold degrees. pose proof PI_RGT_0 as Hpi.
  assert (E : forall y, y * 180 / PI = y * (180 / PI)) by (intro y; field; lra).
  rewrite E.
  assert (Hk : 0 < 180 / PI) by (apply Rdiv_lt_0_compat; lra).
  assert (E90 : PI / 2 * (180 / PI) = 90) by (field; lra).
  split.
  - replace (-90) with (- (PI / 2) * (180 / PI)) by (field; lra).
    apply Rmult_le_compat_r; lra.
  - rewrite <- E90. apply Rmult_le_compat_r; lra.
Qed.

(** The law-of-cosines form stays within [-1, 1]. *)
Lemma cosine_form_bound (a b c d t : R) :
  a * a + b * b = 1 -> c * c + d * d = 1 -> -1 <= t <= 1 ->
  -1 <= a * c + b * d * t <= 1.
Proof.
  intros H1 H2 [Ht1 Ht2].
  pose proof (Rle_0_sqr (a - c)) as S1. pose proof (Rle_0_sqr (b - d)) as S2.
  pose proof (Rle_0_sqr (a + c)) as S3. pose proof (Rle_0_sqr (b + d)) as S4.
  unfold Rsqr in S1, S2, S3, S4.
  assert (Hp : a * c + b * d <= 1) by lra.
  assert (Hm : a * c - b * d <= 1) by lra.
  assert (Hp' : -1 <= a * c + b * d) by lra.
  assert (Hm' : -1 <= a * c - b * d) by lra.
  assert (P1 : 0 <= (1 + t) * (1 - (a * c + b * d))) by (apply Rmult_le_pos; lra).
  assert (P2 : 0 <= (1 - t) * (1 - (a * c - b * d))) by (apply Rmult_le_pos; lra).
  assert (P3 : 0 <= (1 + t) * (1 + (a * c + b * d))) by (apply Rmult_le_pos; lra).
  assert (P4 : 0 <= (1 - t) * (1 + (a * c - b * d))) by (apply Rmult_le_pos; lra).
  split; lra.
Qed.

Lemma sin_cos_one (x : R) : sin x * sin x + cos x * cos x = 1.
Proof. pose proof (sin2_cos2 x) as H. unfold Rsqr in H. exact H. Qed.

Lemma cos_range (x : R) : -1 <= cos x <= 1.
Proof. apply COS_bound. Qed.

Lemma mapM_Forall {A B : Type} (f : A -> outcome B) (P : B -> Prop) (l : list A) :
  (forall a b, f a = Ok b -> P b) ->
  forall out, mapM f l = Ok out -> Forall P out.
Proof.
  intro Hf. induction l as [| a l IH]; intros out H; simpl in H.
  - inversion H. constructor.
  - destruct (f a) as [b | e |] eqn:E; simpl in H; try discriminate.
    destruct (mapM f l) as [bs | e |]; simpl in H; try discriminate.
    inversion H. constructor; [apply (Hf a); exact E | apply IH; reflexivity].
Qed.

(** ** The projector and the converter, point by point *)

(** The ranges of the angles, for a remainder that stays within [0, 360]. *)
Section AnyRemainder.

Variable rem : R -> R -> R.
Hypothesis rem_range : forall x : R, 0 <= rem x 360 <= 360.

Lemma project_point_with_azimuth (lat RA_d Ho rot_param dec_rad sl cl : R) (row : R * R)
    (azimuth altitude : R) :
  project_point_with rem lat RA_d Ho rot_param dec_rad sl cl row = Ok (azimuth, altitude) ->
  0 <= azimuth <= 360.
Proof.
  destruct row as [X_pix Y_pix]. unfold project_point_with.
  destruct (math_sqrt _) as [root | e |]; cbn [bind]; try discriminate.
  destruct (py_div _ _) as [sin_t | e |]; cbn [bind]; try discriminate.
  destruct (py_div _ _) as [cos_t | e |]; cbn [bind]; try discriminate.
  destruct (math_sqrt _) as [r | e |]; cbn [bind]; try discriminate.
  intro H. inversion H. apply rem_range.
Qed.

Lemma convert_point_with_angles (date2JD : Z -> Z -> Z -> Z -> Z -> Z -> Z -> R -> R)
    (lat UT_corr sl cl : R) (time_data : list timestamp)
    (irow : nat * (R * R)) (JD RA dec : R) :
  convert_point_with date2JD rem lat UT_corr sl cl time_data irow = Ok (JD, RA, dec) ->
  0 <= RA <= 360 /\ -90 <= dec <= 90.
Proof.
  destruct irow as [i [azimuth altitude]]. unfold convert_point_with.
  destruct (index time_data i) as [t | e |]; cbn [bind]; try discriminate.
  destruct (math_asin _) as [d | e |] eqn:Ed; cbn [bind]; try discriminate.
  intro H. inversion H. subst. split.
  - apply rem_range.
  - unfold math_asin in Ed.
    destruct (Rlt_dec _ (-1)); [discriminate |].
    destruct (Rlt_dec 1 _); [discriminate |].
    inversion Ed. apply degrees_bound. apply asin_bound.
Qed.

Lemma XY2altAz_with_azimuths (lat lon RA_d dec_d Ho rot_param : R)
    (X_data Y_data az_data alt_data : list R) :
  XY2altAz_with rem lat lon RA_d dec_d Ho rot_param X_data Y_data = Ok (az_data, alt_data) ->
  Forall (fun az => 0 <= az <= 360) az_data.
Proof.
  intro Hp. unfold XY2altAz_with in Hp.
  destruct (vstack2 X_data Y_data) as [m | e |]; cbn [bind] in Hp; try discriminate.
  destruct (mapM _ m) as [out | e |] eqn:Em; cbn [bind] in Hp; try discriminate.
  inversion Hp. subst. apply Forall_map.
  eapply mapM_Forall; [| exact Em].
  intros row [az alt] Hrow. simpl. eapply project_point_with_azimuth. exact Hrow.
Qed.

Lemma altAz2RADec_with_angles (date2JD : Z -> Z -> Z -> Z -> Z -> Z -> Z -> R -> R)
    (lat lon UT_corr : R) (time_data : list timestamp)
    (azimuth_data altitude_data JD_data RA_data dec_data : list R) :
  altAz2RADec_with date2JD rem lat lon UT_corr time_data azimuth_data altitude_data
  = Ok (JD_data, RA_data, dec_data) ->
  Forall (fun ra => 0 <= ra <= 360) RA_data /\
  Forall (fun dec => -90 <= dec <= 90) dec_data.
Proof.
  intro Hc. unfold altAz2RADec_with in Hc.
  destruct (vstack2 azimuth_data altitude_data) as [m | e |]; cbn [bind] in Hc;
    try discriminate.
  destruct (mapM _ (enumerate m)) as [out | e |] eqn:Em; cbn [bind] in Hc; try discriminate.
  unfold unzip3 in Hc. inversion Hc. subst.
  assert (Hall : Forall (fun p : R * R * R =>
                   (0 <= snd (fst p) <= 360) /\ (-90 <= snd p <= 90)) out).
  { eapply mapM_Forall; [| exact Em].
    intros irow [[JD RA] dec] Hrow. simpl. eapply convert_point_with_angles. exact Hrow. }
  split; apply Forall_map; eapply Forall_impl; try exact Hall; simpl; tauto.
Qed.

End AnyRemainder.

Section ConvertPoint.

Variable date2JD : Z -> Z -> Z -> Z -> Z -> Z -> Z -> R -> R.

(** The converter raises nothing but the index error of a missing time. *)
Lemma convert_point_Ok (lat UT_corr lon : R) (time_data : list timestamp)
    (i : nat) (azimuth altitude : R) (t : timestamp) :
  nth_error time_data i = Some t ->
  exists JD RA dec,
    convert_point date2JD lat UT_corr (sin (radians lon)) (cos (radians lon)) time_data
      (i, (azimuth, altitude)) = Ok (JD, RA, dec).
Proof.
  intro Ht. unfold convert_point, convert_point_with, index. rewrite Ht. cbn [bind].
  pose proof (cosine_form_bound (sin (radians lon)) (cos (radians lon))
                (sin (radians altitude)) (cos (radians altitude)) (cos (radians azimuth))
                (sin_cos_one _) (sin_cos_one _) (cos_range _)) as [Hb1 Hb2].
  unfold math_asin.
  destruct (Rlt_dec _ (-1)); [lra |].
  destruct (Rlt_dec 1 _); [lra |].
  cbn [bind]. eexists _, _, _. reflexivity.
Qed.

End ConvertPoint.

(** *** The projector and the converter at given points *)

Lemma radians_0 : radians 0 = 0.
Proof. unfold radians. lra. Qed.

Lemma degrees_0 : degrees 0 = 0.
Proof. unfold degrees. unfold Rdiv. rewrite !Rmult_0_l. reflexivity. Qed.

Lemma radians_90 : radians 90 = PI / 2.
Proof. unfold radians. lra. Qed.

Lemma degrees_PI2 : degrees (PI / 2) = 90.
Proof. unfold degrees. field. apply PI_neq0. Qed.

Lemma atan2_0_0 : atan2 0 0 = 0.
Proof.
  unfold atan2. destruct (Rlt_dec 0 0); [lra | reflexivity].
Qed.

Lemma atan2_0_1 : atan2 0 1 = 0.
Proof.
  unfold atan2. destruct (Rlt_dec 0 1); [| lra].
  replace (0 / 1) with 0 by lra. apply atan_0.
Qed.

Lemma atan2_1_0 : atan2 1 0 = PI / 2.
Proof.
  unfold atan2. destruct (Rlt_dec 0 0); [lra |].
  destruct (Rlt_dec 0 1); [reflexivity | lra].
Qed.

Lemma pymod_0_360 : pymod 0 360 = 0.
Proof. apply pymod_small; lra. Qed.

Lemma math_sqrt_Ok (x : R) : 0 <= x -> math_sqrt x = Ok (sqrt x).
Proof. intro H. unfold math_sqrt. destruct (Rlt_dec x 0); [lra | reflexivity]. Qed.

Lemma py_div_Ok (x y : R) : y <> 0 -> py_div x y = Ok (x / y).
Proof. intro H. unfold py_div. destruct (Req_dec_T y 0); [contradiction | reflexivity]. Qed.

Lemma math_asin_Ok (x : R) : -1 <= x <= 1 -> math_asin x = Ok (asin x).
Proof.
  intros [H1 H2]. unfold math_asin.
  destruct (Rlt_dec x (-1)); [lra |]. destruct (Rlt_dec 1 x); [lra | reflexivity].
Qed.

Lemma Rminus_same (x : R) : x - x = 0.
Proof. lra. Qed.

Lemma Rdiv_one (x : R) : x / 1 = x.
Proof. lra. Qed.

Lemma Rdiv_zero (x : R) : 0 / x = 0.
Proof. unfold Rdiv. apply Rmult_0_l. Qed.

Lemma Ropp_zero : - 0 = 0.
Proof. lra. Qed.

Create Rewrite HintDb ground.
#[local] Hint Rewrite radians_0 degrees_0 radians_90 degrees_PI2 atan2_0_0 atan2_0_1 atan2_1_0
  pymod_0_360 sin_0 cos_0 sin_PI2 cos_PI2 sqrt_0 sqrt_1 asin_0
  Rmult_0_l Rmult_0_r Rmult_1_l Rmult_1_r Rplus_0_l Rplus_0_r Rminus_0_r
  Rminus_same Rdiv_one Rdiv_zero Ropp_zero : ground.

Ltac ground := simpl pow; autorewrite with ground.

(** The projector at the optical axis, for a camera that looks at the
    origin of the equatorial frame from latitude and longitude 0. *)
Lemma axis_projected :
  XY2altAz 0 0 0 0 0 90 [0] [0] = Ok ([0], [90]).
Proof.
  unfold XY2altAz, XY2altAz_with, vstack2. cbn [length Nat.eqb bind combine mapM].
  unfold project_point, project_point_with. ground.
  rewrite math_sqrt_Ok by lra. cbn [bind]. ground.
  rewrite py_div_Ok by lra. cbn [bind]. ground.
  rewrite py_div_Ok by lra. cbn [bind]. ground.
  rewrite math_sqrt_Ok by lra. cbn [bind]. ground.
  reflexivity.
Qed.

Section Converted.

Variable date2JD : Z -> Z -> Z -> Z -> Z -> Z -> Z -> R -> R.

(** The converter at the zenith of that camera. *)
Lemma zenith_converted (UT_corr : R) (t : timestamp) :
  altAz2RADec date2JD 0 0 UT_corr [t] [0] [90]
  = Ok ([date2JD (year t) (month t) (day t) (hour t) (minute t) (second t)
           (millisecond t) UT_corr],
        [pymod (sidereal (date2JD (year t) (month t) (day t) (hour t) (minute t)
                            (second t) (millisecond t) UT_corr)) 360],
        [0]).
Proof.
  unfold altAz2RADec, altAz2RADec_with, vstack2, enumerate.
  cbn [length Nat.eqb bind combine mapM seq].
  unfold convert_point, convert_point_with, index. cbn [nth_error bind]. ground.
  rewrite math_asin_Ok by lra. cbn [bind]. ground.
  reflexivity.
Qed.

End Converted.

(** *** Two runs that return the angle 360 *)

Lemma tiny_angle_bounds : 0 < tiny_angle < / 2 ^ 45.
Proof.
  unfold tiny_angle.
  assert (P45 : 2 ^ 45 = 35184372088832) by lra.
  assert (P60 : 2 ^ 60 = 1152921504606846976) by lra.
  rewrite P45, P60. lra.
Qed.

Lemma float_rem_0_360 : float_rem 0 360 = 0.
Proof. apply float_rem_small; lra. Qed.

Lemma float_rem_tiny_angle : float_rem (- tiny_angle) 360 = 360.
Proof. apply float_rem_reaches_360. exact tiny_angle_bounds. Qed.

Lemma radians_tiny_bounds : 0 < radians tiny_angle < PI / 2.
Proof.
  pose proof tiny_angle_bounds as [H0 H1]. pose proof PI_RGT_0 as Hpi.
  assert (P45 : 2 ^ 45 = 35184372088832) by lra. rewrite P45 in H1.
  unfold radians. split; nra.
Qed.

Lemma degrees_radians (x : R) : degrees (radians x) = x.
Proof. unfold degrees, radians. field. apply PI_neq0. Qed.

(** The direction of a small angle [u] from its sine and cosine. *)
Lemma atan2_sin_cos (u : R) : - (PI / 2) < u < PI / 2 -> atan2 (sin u) (cos u) = u.
Proof.
  intro H. unfold atan2.
  assert (Hc : 0 < cos u) by (apply cos_gt_0; lra).
  destruct (Rlt_dec 0 (cos u)); [| contradiction].
  fold (tan u). apply atan_tan. exact H.
Qed.

Lemma cos_PI_minus (u : R) : cos (PI - u) = - cos u.
Proof. rewrite cos_minus, cos_PI, sin_PI. ring. Qed.

#[local] Hint Rewrite float_rem_0_360 : ground.

(** The projector for a camera at longitude 90 that looks at the origin of
    the equatorial frame, at a latitude just below 0. *)
Lemma grazing_projected :
  XY2altAz_float (- tiny_angle) 90 0 0 180 90 [0] [0] = Ok ([360], [0]).
Proof.
  unfold XY2altAz_float, XY2altAz_with, vstack2. cbn [length Nat.eqb bind combine mapM].
  unfold project_point_with. ground.
  rewrite math_sqrt_Ok by lra. cbn [bind]. ground.
  rewrite py_div_Ok by lra. cbn [bind]. ground.
  rewrite py_div_Ok by lra. cbn [bind]. ground.
  replace (radians (180 + - tiny_angle)) with (PI - radians tiny_angle)
    by (unfold radians; field).
  rewrite sin_PI_x, cos_PI_minus.
  pose proof radians_tiny_bounds as Hu.
  set (u := radians tiny_angle) in *.
  replace (- - cos u * - - cos u + - sin u * - sin u) with 1
    by (pose proof (sin_cos_one u); lra).
  rewrite math_sqrt_Ok by lra. cbn [bind]. ground.
  replace (- - cos u) with (cos (- u)) by (rewrite cos_neg; lra).
  rewrite <- sin_neg, atan2_sin_cos by lra.
  replace (degrees (- u)) with (- tiny_angle)
    by (unfold u, degrees, radians; field; apply PI_neq0).
  rewrite float_rem_tiny_angle. reflexivity.
Qed.

Lemma radians_minus_90 : radians (-90) = - (PI / 2).
Proof. unfold radians. lra. Qed.

(** The referent hour angle at the epoch J2000.0. *)
Lemma sidereal_float_J2000 : sidereal_with float_rem 2451545 = 280.46061837.
Proof.
  unfold sidereal_with.
  replace (280.46061837 + 360.98564736629 * (2451545 - 2451545.0)
           + 0.000387933 * ((2451545 - 2451545.0) / 36525.0) ^ 2
           - ((2451545 - 2451545.0) / 36525.0) ^ 3 / 38710000.0)
    with 280.46061837 by (simpl; lra).
  apply float_rem_small; lra.
Qed.

(** The converter for a camera at longitude -90, on a point of the horizon
    at an azimuth just below 0, at the epoch J2000.0. *)
Lemma grazing_converted :
  altAz2RADec_float J2000_clock (-280.46061837) (-90) 0 [noon_2000] [- tiny_angle] [0]
  = Ok ([2451545], [360], [0]).
Proof.
  unfold altAz2RADec_float, altAz2RADec_with, vstack2, enumerate.
  cbn [length Nat.eqb bind combine mapM seq].
  unfold convert_point_with, index. cbn [nth_error bind].
  unfold J2000_clock. rewrite sidereal_float_J2000.
  rewrite radians_minus_90, sin_neg, cos_neg.
  replace (radians (- tiny_angle)) with (- radians tiny_angle) by (unfold radians; lra).
  rewrite sin_neg, cos_neg.
  pose proof radians_tiny_bounds as Hu.
  set (u := radians tiny_angle) in *. ground.
  replace (- 1 * 0) with 0 by lra. ground.
  rewrite math_asin_Ok by lra. cbn [bind]. ground.
  replace (- - sin u) with (sin u) by lra.
  replace (- cos u * - (1)) with (cos u) by lra.
  rewrite atan2_sin_cos by lra.
  replace (degrees u) with tiny_angle by (unfold u; rewrite degrees_radians; reflexivity).
  replace (280.46061837 + -280.46061837 - tiny_angle) with (- tiny_angle) by lra.
  rewrite float_rem_tiny_angle. reflexivity.
Qed.

(** C3, amended.  Every azimuth that the sky projector returns lies in
    [0, 360], every right ascension that the equatorial converter returns
    lies in [0, 360], and every declination that it returns lies in
    [-90, 90], all ends included, for every calibration and every input
    sequence, with [% 360] as it is computed on floats. *)
Theorem angles_normalised (date2JD : Z -> Z -> Z -> Z -> Z -> Z -> Z -> R -> R)
    (lat lon RA_d dec_d Ho rot_param : R) (X_data Y_data az_data alt_data : list R)
    (lat' lon' UT_corr : R) (time_data : list timestamp)
    (azimuth_data altitude_data JD_data RA_data dec_data : list R) :
  (XY2altAz_float lat lon RA_d dec_d Ho rot_param X_data Y_data = Ok (az_data, alt_data) ->
   Forall (fun az => 0 <= az <= 360) az_data) /\
  (altAz2RADec_float date2JD lat' lon' UT_corr time_data azimuth_data altitude_data
   = Ok (JD_data, RA_data, dec_data) ->
   Forall (fun ra => 0 <= ra <= 360) RA_data /\
   Forall (fun dec => -90 <= dec <= 90) dec_data).
Proof.
  split.
  - apply XY2altAz_with_azimuths. exact float_rem_range.
  - apply altAz2RADec_with_angles. exact float_rem_range.
Qed.

(** C3 as stated fails: the projector returns the azimuth 360 and the
    converter the right ascension 360, which are not in [0, 360). *)
Lemma angle_360_is_returned :
  XY2altAz_float (- tiny_angle) 90 0 0 180 90 [0] [0] = Ok ([360], [0]) /\
  altAz2RADec_float J2000_clock (-280.46061837) (-90) 0 [noon_2000] [- tiny_angle] [0]
  = Ok ([2451545], [360], [0]) /\
  ~ Forall (fun angle => 0 <= angle < 360) [360].
Proof.
  split; [exact grazing_projected |]. split; [exact grazing_converted |].
  intro H. inversion H as [| a l Ha Hl]. lra.
Qed.

(** The two runs that return 360. *)
Lemma angles_normalised_witness :
  Forall (fun az => 0 <= az <= 360) [360] /\
  Forall (fun ra => 0 <= ra <= 360) [360] /\
  Forall (fun dec => -90 <= dec <= 90) [0].
Proof.
  destruct (angles_normalised J2000_clock (- tiny_angle) 90 0 0 180 90 [0] [0] [360] [0]
              (-280.46061837) (-90) 0 [noon_2000] [- tiny_angle] [0] [2451545] [360] [0])
    as [Hp Hc].
  split.
  - exact (Hp grazing_projected).
  - exact (Hc grazing_converted).
Defined.

(** ** The magnitude estimator *)

Lemma by_sign_pos {A : Type} (r : R) (pos zero neg : A) :
  0 < r -> by_sign r pos zero neg = pos.
Proof. intro H. unfold by_sign. destruct (Rlt_dec 0 r); [reflexivity | contradiction]. Qed.

Lemma by_sign_zero {A : Type} (pos zero neg : A) : by_sign 0 pos zero neg = zero.
Proof.
  unfold by_sign. destruct (Rlt_dec 0 0); [lra | reflexivity].
Qed.

Lemma np_arccos_Fin (x : R) : -1 <= x <= 1 -> np_arccos x = Fin (acos x).
Proof.
  intros [H1 H2]. unfold np_arccos.
  destruct (Rlt_dec x (-1)); [lra |]. destruct (Rlt_dec 1 x); [lra | reflexivity].
Qed.

(** The length of the trail is always a finite angle. *)
Lemma trail_length_Fin (ra_beg ra_end dec_beg dec_end : R) :
  trail_length ra_beg ra_end dec_beg dec_end
  = Fin (law_of_cosines_length ra_beg ra_end dec_beg dec_end).
Proof.
  unfold trail_length, law_of_cosines_length.
  rewrite np_arccos_Fin; [reflexivity |].
  apply cosine_form_bound; [apply sin_cos_one | apply sin_cos_one | apply cos_range].
Qed.

Lemma xlog10_pos (level : R) : 0 < level -> xlog10 (Fin level) = Fin (log10 level).
Proof. intro H. simpl. apply by_sign_pos. exact H. Qed.

Lemma base_magnitude_Fin (mag_0 mag_lev level : R) :
  0 < level ->
  base_magnitude mag_0 mag_lev level = Fin (uncorrected_magnitude mag_0 mag_lev level).
Proof.
  intro H. unfold base_magnitude. rewrite (xlog10_pos level H).
  unfold uncorrected_magnitude. simpl.
  destruct (Rle_dec (log10 level) 3.2); reflexivity.
Qed.

Lemma magnitude_of_spec (v : xreal) (mag_0 mag_lev w_pix level : R) :
  0 < level ->
  magnitude_of v mag_0 mag_lev w_pix level = spec_magnitude v mag_0 mag_lev w_pix level.
Proof.
  intro H. unfold magnitude_of, spec_magnitude. rewrite (base_magnitude_Fin _ _ _ H).
  reflexivity.
Qed.

Lemma spec_magnitude_finite (len duration mag_0 mag_lev w_pix level : R) :
  duration <> 0 -> 0 < w_pix ->
  spec_magnitude (Fin len / Fin duration)%X mag_0 mag_lev w_pix level
  = Fin (if Rlt_dec w_pix (len / duration)
         then uncorrected_magnitude mag_0 mag_lev level
              - 2.5 * log10 (len / duration / w_pix)
         else uncorrected_magnitude mag_0 mag_lev level).
Proof.
  intros Hd Hw. unfold spec_magnitude. cbn [xdiv].
  destruct (Req_dec_T duration 0); [contradiction |]. cbn [xgtb].
  destruct (Rlt_dec w_pix (len / duration)) as [Hv |]; [| reflexivity].
  cbn [xdiv]. destruct (Req_dec_T w_pix 0); [lra |].
  cbn [xlog10]. rewrite by_sign_pos by (apply Rdiv_lt_0_compat; lra).
  reflexivity.
Qed.

Lemma map_ext_Forall {A B : Type} (P : A -> Prop) (f g : A -> B) (l : list A) :
  Forall P l -> (forall a, P a -> f a = g a) -> map f l = map g l.
Proof.
  intros HP Hfg. induction HP as [| a l Ha _ IH]; simpl; [reflexivity |].
  rewrite (Hfg a Ha), IH. reflexivity.
Qed.

(** C5.  For levels that are all positive, the magnitude estimator takes
    the angular length of the trail by the spherical law of cosines between
    the two end points, divides it by the duration for the angular velocity,
    and returns per level [mag_0 * log10(level) + mag_lev] when
    [log10(level) <= 3.2] and [-20 * log10(level) + 64.5] otherwise, less
    [2.5 * log10(angular_velocity / w_pix)] exactly when the angular
    velocity exceeds [w_pix]; for a non-zero duration and a positive [w_pix]
    all of these are finite numbers. *)
Theorem magnitudes_follow_calibration_law (level_data : list R)
    (ra_beg ra_end dec_beg dec_end duration mag_0 mag_lev w_pix : R) :
  Forall (fun level => 0 < level) level_data ->
  angular_velocity ra_beg ra_end dec_beg dec_end duration
  = (Fin (law_of_cosines_length ra_beg ra_end dec_beg dec_end) / Fin duration)%X /\
  calculateMagnitudes level_data ra_beg ra_end dec_beg dec_end duration mag_0 mag_lev w_pix
  = map (spec_magnitude
           (Fin (law_of_cosines_length ra_beg ra_end dec_beg dec_end) / Fin duration)%X
           mag_0 mag_lev w_pix) level_data /\
  (duration <> 0 -> 0 < w_pix ->
   calculateMagnitudes level_data ra_beg ra_end dec_beg dec_end duration mag_0 mag_lev w_pix
   = map (fun level =>
            Fin (if Rlt_dec w_pix
                      (law_of_cosines_length ra_beg ra_end dec_beg dec_end / duration)
                 then uncorrected_magnitude mag_0 mag_lev level
                      - 2.5 * log10 (law_of_cosines_length ra_beg ra_end dec_beg dec_end
                                     / duration / w_pix)
                 else uncorrected_magnitude mag_0 mag_lev level)) level_data).
Proof.
  intro Hpos.
  assert (Hv : angular_velocity ra_beg ra_end dec_beg dec_end duration
               = (Fin (law_of_cosines_length ra_beg ra_end dec_beg dec_end)
                  / Fin duration)%X).
  { unfold angular_velocity. rewrite trail_length_Fin. reflexivity. }
  assert (Hm : calculateMagnitudes level_data ra_beg ra_end dec_beg dec_end duration
                 mag_0 mag_lev w_pix
               = map (spec_magnitude
                        (Fin (law_of_cosines_length ra_beg ra_end dec_beg dec_end)
                         / Fin duration)%X mag_0 mag_lev w_pix) level_data).
  { unfold calculateMagnitudes. rewrite Hv.
    apply (map_ext_Forall (fun level => 0 < level)); [exact Hpos |].
    intros level Hl. apply magnitude_of_spec. exact Hl. }
  split; [exact Hv |]. split; [exact Hm |].
  intros Hd Hw. rewrite Hm. apply map_ext. intro level.
  apply spec_magnitude_finite; assumption.
Qed.

(** The magnitudes of a trail of two levels that lasts half a second. *)
Lemma magnitudes_follow_calibration_law_witness :
  calculateMagnitudes [100; 2000] 10 12 40 41 0.5 (-2.5) 10 1
  = map (fun level =>
           Fin (if Rlt_dec 1 (law_of_cosines_length 10 12 40 41 / 0.5)
                then uncorrected_magnitude (-2.5) 10 level
                     - 2.5 * log10 (law_of_cosines_length 10 12 40 41 / 0.5 / 1)
                else uncorrected_magnitude (-2.5) 10 level)) [100; 2000].
Proof.
  apply (magnitudes_follow_calibration_law [100; 2000] 10 12 40 41 0.5 (-2.5) 10 1).
  - repeat constructor; lra.
  - lra.
  - lra.
Defined.

(** ** The orchestrator *)

Lemma index_hd (l : list R) : l <> [] -> index l 0 = Ok (hd 0 l).
Proof. destruct l; [congruence | reflexivity]. Qed.

Lemma index_last_last (l : list R) : l <> [] -> index_last l = Ok (last l 0).
Proof.
  intro H. unfold index_last, index.
  destruct (exists_last H) as [l' [a E]]. subst l.
  rewrite last_last, length_app. simpl.
  replace (length l' + 1 - 1)%nat with (length l') by lia.
  rewrite nth_error_app2 by lia. rewrite Nat.sub_diag. reflexivity.
Qed.

Lemma length_nonempty {A B : Type} (l : list A) (l' : list B) :
  length l = length l' -> l' <> [] -> l <> [].
Proof. destruct l, l'; simpl; congruence. Qed.

Lemma vstack2_inv (a b : list R) (m : list (R * R)) :
  vstack2 a b = Ok m -> length a = length b /\ m = combine a b /\ length m = length a.
Proof.
  unfold vstack2. destruct (Nat.eqb (length a) (length b)) eqn:E; [| discriminate].
  apply Nat.eqb_eq in E. intro H. inversion H.
  repeat split; try assumption. rewrite length_combine. lia.
Qed.

Lemma XY2altAz_length (lat lon RA_d dec_d Ho rot_param : R)
    (X_data Y_data az_data alt_data : list R) :
  XY2altAz lat lon RA_d dec_d Ho rot_param X_data Y_data = Ok (az_data, alt_data) ->
  length az_data = length X_data /\ length alt_data = length X_data.
Proof.
  unfold XY2altAz, XY2altAz_with.
  destruct (vstack2 X_data Y_data) as [m | e |] eqn:Ev; cbn [bind]; try discriminate.
  destruct (mapM _ m) as [out | e |] eqn:Em; cbn [bind]; try discriminate.
  intro H. inversion H. subst.
  apply mapM_length in Em. apply vstack2_inv in Ev. destruct Ev as [_ [_ Hm]].
  rewrite !length_map. lia.
Qed.

Lemma enumerate_length {A : Type} (l : list A) : length (enumerate l) = length l.
Proof. unfold enumerate. rewrite length_combine, length_seq. lia. Qed.

Section Orchestrator.

Variable date2JD : Z -> Z -> Z -> Z -> Z -> Z -> Z -> R -> R.

Lemma altAz2RADec_length (lat lon UT_corr : R) (time_data : list timestamp)
    (azimuth_data altitude_data JD_data RA_data dec_data : list R) :
  altAz2RADec date2JD lat lon UT_corr time_data azimuth_data altitude_data
  = Ok (JD_data, RA_data, dec_data) ->
  length JD_data = length azimuth_data /\ length RA_data = length azimuth_data /\
  length dec_data = length azimuth_data.
Proof.
  unfold altAz2RADec, altAz2RADec_with.
  destruct (vstack2 azimuth_data altitude_data) as [m | e |] eqn:Ev; cbn [bind];
    try discriminate.
  destruct (mapM _ (enumerate m)) as [out | e |] eqn:Em; cbn [bind]; try discriminate.
  intro H. inversion H. subst.
  apply mapM_length in Em. rewrite enumerate_length in Em.
  apply vstack2_inv in Ev. destruct Ev as [_ [_ Hm]].
  rewrite !length_map. lia.
Qed.

(** The orchestrator once its three stages have returned. *)
Lemma orchestrator_after_stages (time_data : list timestamp)
    (X_data Y_data level_data : list R) (UT_corr lat lon Ho : R) (X_res Y_res : Z)
    (RA_d dec_d rot_param F_scale w_pix mag_0 mag_lev : R) (x_poly y_poly : list R)
    (Xc Yc Lc az alt JD RA dec : list R) :
  applyFieldCorrection x_poly y_poly X_res Y_res F_scale X_data Y_data level_data
  = Ok (Xc, Yc, Lc) ->
  XY2altAz lat lon RA_d dec_d Ho rot_param Xc Yc = Ok (az, alt) ->
  altAz2RADec date2JD lat lon UT_corr time_data az alt = Ok (JD, RA, dec) ->
  (X_data = [] ->
   XY2CorrectedRADec date2JD time_data X_data Y_data level_data UT_corr lat lon Ho
     X_res Y_res RA_d dec_d rot_param F_scale w_pix mag_0 mag_lev x_poly y_poly
   = Raise IndexError) /\
  (X_data <> [] ->
   XY2CorrectedRADec date2JD time_data X_data Y_data level_data UT_corr lat lon Ho
     X_res Y_res RA_d dec_d rot_param F_scale w_pix mag_0 mag_lev x_poly y_poly
   = Ok (JD, RA, dec,
         calculateMagnitudes Lc (hd 0 RA) (last RA 0) (hd 0 dec) (last dec 0)
           ((last JD 0 - hd 0 JD) * 86400) mag_0 mag_lev w_pix)).
Proof.
  intros Hc Hp He.
  pose proof (applyFieldCorrection_length _ _ _ _ _ _ _ _ _ _ _ Hc) as [LX _].
  pose proof (XY2altAz_length _ _ _ _ _ _ _ _ _ _ Hp) as [La _].
  pose proof (altAz2RADec_length _ _ _ _ _ _ _ _ _ He) as [LJ [LR LD]].
  unfold XY2CorrectedRADec. rewrite Hc. cbn [bind]. rewrite Hp. cbn [bind].
  rewrite He. cbn [bind]. split.
  - intro E. subst X_data. simpl in LX.
    assert (RA = []) by (destruct RA; [reflexivity | simpl in *; lia]).
    subst RA. reflexivity.
  - intro Hne.
    assert (HRA : RA <> []) by (apply (length_nonempty RA X_data); [lia | exact Hne]).
    assert (Hdec : dec <> []) by (apply (length_nonempty dec X_data); [lia | exact Hne]).
    assert (HJD : JD <> []) by (apply (length_nonempty JD X_data); [lia | exact Hne]).
    rewrite (index_hd RA HRA), (index_last_last RA HRA). cbn [bind].
    rewrite (index_hd dec Hdec), (index_last_last dec Hdec). cbn [bind].
    rewrite (index_hd JD HJD), (index_last_last JD HJD). cbn [bind].
    reflexivity.
Qed.

(** C4.  On a non-empty track the orchestrator returns what the corrector,
    then the projector, then the converter give, each fed with the output
    of the one before, with the magnitudes of the corrected levels computed
    from the first and last converted points and the duration
    [(JD_last - JD_first) * 86400]; an error of a stage is the error of the
    orchestrator. *)
Theorem orchestrator_is_composition (time_data : list timestamp)
    (X_data Y_data level_data : list R) (UT_corr lat lon Ho : R) (X_res Y_res : Z)
    (RA_d dec_d rot_param F_scale w_pix mag_0 mag_lev : R) (x_poly y_poly : list R) :
  X_data <> [] ->
  XY2CorrectedRADec date2JD time_data X_data Y_data level_data UT_corr lat lon Ho
    X_res Y_res RA_d dec_d rot_param F_scale w_pix mag_0 mag_lev x_poly y_poly
  = run_pipeline date2JD time_data X_data Y_data level_data UT_corr lat lon Ho
      X_res Y_res RA_d dec_d rot_param F_scale w_pix mag_0 mag_lev x_poly y_poly.
Proof.
  intro Hne.
  destruct (applyFieldCorrection x_poly y_poly X_res Y_res F_scale X_data Y_data level_data)
    as [[[Xc Yc] Lc] | e |] eqn:Hc.
  2,3: unfold XY2CorrectedRADec, run_pipeline; rewrite Hc; reflexivity.
  destruct (XY2altAz lat lon RA_d dec_d Ho rot_param Xc Yc) as [[az alt] | e |] eqn:Hp.
  2,3: unfold XY2CorrectedRADec, run_pipeline; rewrite Hc; cbn [bind fst snd];
       rewrite Hp; reflexivity.
  destruct (altAz2RADec date2JD lat lon UT_corr time_data az alt)
    as [[[JD RA] dec] | e |] eqn:He.
  2,3: unfold XY2CorrectedRADec, run_pipeline; rewrite Hc; cbn [bind fst snd];
       rewrite Hp; cbn [bind fst snd]; rewrite He; reflexivity.
  destruct (orchestrator_after_stages time_data X_data Y_data level_data UT_corr lat lon Ho
              X_res Y_res RA_d dec_d rot_param F_scale w_pix mag_0 mag_lev x_poly y_poly
              Xc Yc Lc az alt JD RA dec Hc Hp He) as [_ H].
  rewrite (H Hne). unfold run_pipeline. rewrite Hc. cbn [bind fst snd].
  rewrite Hp. cbn [bind fst snd]. rewrite He. reflexivity.
Qed.

End Orchestrator.

(** A track of two points. *)
Lemma orchestrator_is_composition_witness :
  XY2CorrectedRADec J2000_clock [noon_2000; noon_2000] [100; 110] [200; 210] [500; 600]
    1 45 16 120 720 576 30 60 15 2 1 (-2.5) 10 zero_poly zero_poly
  = run_pipeline J2000_clock [noon_2000; noon_2000] [100; 110] [200; 210] [500; 600]
      1 45 16 120 720 576 30 60 15 2 1 (-2.5) 10 zero_poly zero_poly.
Proof.
  apply (orchestrator_is_composition J2000_clock). discriminate.
Defined.

(** ** Tracks and calibrations out of the contract *)

(** A trail from a point to itself has length 0, and over a duration of 0
    its angular velocity is 0/0. *)
Lemma law_of_cosines_length_same (ra dec : R) : law_of_cosines_length ra ra dec dec = 0.
Proof.
  unfold law_of_cosines_length.
  rewrite Rminus_same, cos_0, Rmult_1_r, sin_cos_one, acos_1. apply degrees_0.
Qed.

Lemma angular_velocity_single (ra dec : R) : angular_velocity ra ra dec dec 0 = NaN.
Proof.
  unfold angular_velocity. rewrite trail_length_Fin, law_of_cosines_length_same.
  cbn [xdiv]. destruct (Req_dec_T 0 0); [apply by_sign_zero | congruence].
Qed.

Lemma calculateMagnitudes_single (level_data : list R) (ra dec mag_0 mag_lev w_pix : R) :
  calculateMagnitudes level_data ra ra dec dec 0 mag_0 mag_lev w_pix
  = map (base_magnitude mag_0 mag_lev) level_data.
Proof.
  unfold calculateMagnitudes. rewrite angular_velocity_single. reflexivity.
Qed.

Lemma mapM_ext {A B : Type} (f g : A -> outcome B) (l : list A) :
  (forall a, f a = g a) -> mapM f l = mapM g l.
Proof.
  intro H. induction l as [| a l IH]; simpl; [reflexivity |]. rewrite H, IH. reflexivity.
Qed.

Lemma distortion_app (poly more : list R) (Xdet Ydet a b : R) :
  (12 <= length poly)%nat ->
  distortion (poly ++ more) Xdet Ydet a b = distortion poly Xdet Ydet a b.
Proof.
  intro H. rewrite !distortion_Ok by (rewrite ?length_app; lia).
  rewrite poly_value_app by exact H. reflexivity.
Qed.

(** Coefficients after the twelfth are never read. *)
Lemma applyFieldCorrection_app (x_poly y_poly more_x more_y : list R) (X_res Y_res : Z)
    (F_scale : R) (X_data Y_data level_data : list R) :
  (12 <= length x_poly)%nat -> (12 <= length y_poly)%nat ->
  applyFieldCorrection (x_poly ++ more_x) (y_poly ++ more_y) X_res Y_res F_scale
    X_data Y_data level_data
  = applyFieldCorrection x_poly y_poly X_res Y_res F_scale X_data Y_data level_data.
Proof.
  intros Hx Hy. unfold applyFieldCorrection.
  destruct (vstack3 X_data Y_data level_data) as [m | e |]; cbn [bind]; try reflexivity.
  rewrite (mapM_ext (correct_point (x_poly ++ more_x) (y_poly ++ more_y) X_res Y_res F_scale)
             (correct_point x_poly y_poly X_res Y_res F_scale)); [reflexivity |].
  intros [[x y] level]. unfold correct_point.
  destruct (to_CIF X_res 384 x) as [Xdet | e |]; cbn [bind]; try reflexivity.
  destruct (to_CIF Y_res 288 y) as [Ydet | e |]; cbn [bind]; try reflexivity.
  rewrite !distortion_app by assumption. reflexivity.
Qed.

(** With a coefficient missing, the corrector raises at its first point. *)
Lemma applyFieldCorrection_short (x_poly y_poly : list R) (X_res Y_res : Z) (F_scale : R)
    (X_data Y_data level_data : list R) :
  ((length x_poly < 12)%nat \/ (length y_poly < 12)%nat) ->
  X_res <> 0%Z -> Y_res <> 0%Z ->
  X_data <> [] -> length X_data = length Y_data -> length Y_data = length level_data ->
  applyFieldCorrection x_poly y_poly X_res Y_res F_scale X_data Y_data level_data
  = Raise IndexError.
Proof.
  intros Hshort HX HY Hne H1 H2. unfold applyFieldCorrection.
  rewrite vstack3_Ok by assumption. cbn [bind].
  destruct X_data as [| x X']; [congruence |].
  destruct Y_data as [| y Y']; [discriminate |].
  destruct level_data as [| level L']; [discriminate |].
  cbn [combine]. rewrite (mapM_Raise_head _ _ _ IndexError); [reflexivity |].
  unfold correct_point. rewrite !to_CIF_Ok by (assumption || lra). cbn [bind].
  destruct (Nat.lt_ge_cases (length x_poly) 12) as [Hx | Hx].
  - rewrite distortion_short by exact Hx. reflexivity.
  - rewrite distortion_Ok by exact Hx. cbn [bind].
    destruct Hshort as [Hs | Hs]; [lia |].
    rewrite distortion_short by exact Hs. reflexivity.
Qed.

(** A division by the duration 0 gives no finite number, whatever is
    divided. *)
Lemma xdiv_zero_not_finite (len : xreal) (v : R) : (len / Fin 0)%X <> Fin v.
Proof.
  destruct len as [a | | |]; cbn [xdiv];
    destruct (Req_dec_T 0 0) as [_ | N]; try (exfalso; apply N; reflexivity);
    unfold by_sign; repeat destruct (Rlt_dec _ _); discriminate.
Qed.

Section Runs.

Variable date2JD : Z -> Z -> Z -> Z -> Z -> Z -> Z -> R -> R.

(** A run on the single point at the centre of a 720 x 576 image, for a
    camera at latitude and longitude 0 that looks at the origin of the
    equatorial frame. *)
Lemma centre_run (t : timestamp) (level UT_corr F_scale w_pix mag_0 mag_lev : R)
    (x_poly y_poly : list R) :
  (12 <= length x_poly)%nat -> (12 <= length y_poly)%nat -> F_scale <> 0 ->
  poly_value x_poly 0 0 0 0 = 0 -> poly_value y_poly 0 0 0 0 = 0 ->
  XY2CorrectedRADec date2JD [t] [360] [288] [level] UT_corr 0 0 0 720 576 0 0 90
    F_scale w_pix mag_0 mag_lev x_poly y_poly
  = Ok ([date2JD (year t) (month t) (day t) (hour t) (minute t) (second t)
           (millisecond t) UT_corr],
        [pymod (sidereal (date2JD (year t) (month t) (day t) (hour t) (minute t)
                            (second t) (millisecond t) UT_corr)) 360],
        [0],
        [base_magnitude mag_0 mag_lev (level * (1 + 0.00245 * (sqrt 73728 - 120)))]).
Proof.
  intros Hx Hy HF Px Py.
  destruct (orchestrator_after_stages date2JD [t] [360] [288] [level] UT_corr 0 0 0 720 576
              0 0 90 F_scale w_pix mag_0 mag_lev x_poly y_poly
              _ _ _ _ _ _ _ _
              (centre_corrected x_poly y_poly F_scale level Hx Hy HF Px Py)
              axis_projected (zenith_converted date2JD UT_corr t)) as [_ H].
  rewrite H by discriminate. cbn [hd last].
  rewrite Rminus_same, Rmult_0_l, calculateMagnitudes_single. reflexivity.
Qed.

(** C2, amended.  The orchestrator checks nothing about its track.  Once
    the three stages have returned: on an empty track it raises an index
    error, at the read of the first converted point; on every non-empty
    track, whatever the order of its timestamps, it returns a result; and on
    a single-point track the duration is 0 and goes unguarded into the
    division of the magnitude estimator, which raises nothing: whatever the
    length of the trail, the angular velocity is then not a finite number,
    and the magnitudes computed with it are returned. *)
Theorem orchestrator_has_no_track_guard (time_data : list timestamp)
    (X_data Y_data level_data : list R) (UT_corr lat lon Ho : R) (X_res Y_res : Z)
    (RA_d dec_d rot_param F_scale w_pix mag_0 mag_lev : R) (x_poly y_poly : list R)
    (Xc Yc Lc az alt JD RA dec : list R) :
  applyFieldCorrection x_poly y_poly X_res Y_res F_scale X_data Y_data level_data
  = Ok (Xc, Yc, Lc) ->
  XY2altAz lat lon RA_d dec_d Ho rot_param Xc Yc = Ok (az, alt) ->
  altAz2RADec date2JD lat lon UT_corr time_data az alt = Ok (JD, RA, dec) ->
  (X_data = [] ->
   XY2CorrectedRADec date2JD time_data X_data Y_data level_data UT_corr lat lon Ho
     X_res Y_res RA_d dec_d rot_param F_scale w_pix mag_0 mag_lev x_poly y_poly
   = Raise IndexError) /\
  (X_data <> [] ->
   XY2CorrectedRADec date2JD time_data X_data Y_data level_data UT_corr lat lon Ho
     X_res Y_res RA_d dec_d rot_param F_scale w_pix mag_0 mag_lev x_poly y_poly
   = Ok (JD, RA, dec,
         calculateMagnitudes Lc (hd 0 RA) (last RA 0) (hd 0 dec) (last dec 0)
           ((last JD 0 - hd 0 JD) * 86400) mag_0 mag_lev w_pix)) /\
  (length X_data = 1%nat ->
   (last JD 0 - hd 0 JD) * 86400 = 0 /\
   (forall (len : xreal) (v : R),
      (len / Fin ((last JD 0 - hd 0 JD) * 86400))%X <> Fin v) /\
   (forall v : R,
      angular_velocity (hd 0 RA) (last RA 0) (hd 0 dec) (last dec 0)
        ((last JD 0 - hd 0 JD) * 86400) <> Fin v) /\
   XY2CorrectedRADec date2JD time_data X_data Y_data level_data UT_corr lat lon Ho
     X_res Y_res RA_d dec_d rot_param F_scale w_pix mag_0 mag_lev x_poly y_poly
   = Ok (JD, RA, dec,
         calculateMagnitudes Lc (hd 0 RA) (last RA 0) (hd 0 dec) (last dec 0)
           0 mag_0 mag_lev w_pix)).
Proof.
  intros Hc Hp He.
  destruct (orchestrator_after_stages date2JD time_data X_data Y_data level_data UT_corr
              lat lon Ho X_res Y_res RA_d dec_d rot_param F_scale w_pix mag_0 mag_lev
              x_poly y_poly Xc Yc Lc az alt JD RA dec Hc Hp He) as [Hempty Hrun].
  split; [exact Hempty |]. split; [exact Hrun |].
  intro Hone.
  pose proof (applyFieldCorrection_length _ _ _ _ _ _ _ _ _ _ _ Hc) as [LX _].
  pose proof (XY2altAz_length _ _ _ _ _ _ _ _ _ _ Hp) as [La _].
  pose proof (altAz2RADec_length _ _ _ _ _ _ _ _ _ _ He) as [LJ _].
  assert (HJ : exists j, JD = [j]).
  { destruct JD as [| j [| ? ?]]; simpl in LJ; try lia. exists j. reflexivity. }
  destruct HJ as [j ->].
  assert (Hne : X_data <> []) by (intro E; rewrite E in Hone; discriminate).
  rewrite (Hrun Hne). cbn [hd last].
  assert (Hd : (j - j) * 86400 = 0) by lra.
  rewrite Hd.
  split; [reflexivity |]. split; [apply xdiv_zero_not_finite |].
  split; [| reflexivity].
  intro v. unfold angular_velocity. apply xdiv_zero_not_finite.
Qed.

(** C8, amended.  The pipeline does not validate its calibration before the
    stages run.  Coefficients after the twelfth are ignored; with fewer than
    twelve coefficients on an axis, non-zero resolutions and a non-empty
    track, the corrector raises an index error at its first point, and so
    does the pipeline; and resolutions and scale of either sign, if not
    zero, are accepted by the corrector, which then returns. *)
Theorem calibration_is_not_validated (time_data : list timestamp)
    (X_data Y_data level_data : list R) (UT_corr lat lon Ho : R) (X_res Y_res : Z)
    (RA_d dec_d rot_param F_scale w_pix mag_0 mag_lev : R)
    (x_poly y_poly more_x more_y : list R) :
  ((12 <= length x_poly)%nat -> (12 <= length y_poly)%nat ->
   XY2CorrectedRADec date2JD time_data X_data Y_data level_data UT_corr lat lon Ho
     X_res Y_res RA_d dec_d rot_param F_scale w_pix mag_0 mag_lev
     (x_poly ++ more_x) (y_poly ++ more_y)
   = XY2CorrectedRADec date2JD time_data X_data Y_data level_data UT_corr lat lon Ho
       X_res Y_res RA_d dec_d rot_param F_scale w_pix mag_0 mag_lev x_poly y_poly) /\
  (((length x_poly < 12)%nat \/ (length y_poly < 12)%nat) ->
   X_res <> 0%Z -> Y_res <> 0%Z ->
   X_data <> [] -> length X_data = length Y_data -> length Y_data = length level_data ->
   applyFieldCorrection x_poly y_poly X_res Y_res F_scale X_data Y_data level_data
   = Raise IndexError /\
   XY2CorrectedRADec date2JD time_data X_data Y_data level_data UT_corr lat lon Ho
     X_res Y_res RA_d dec_d rot_param F_scale w_pix mag_0 mag_lev x_poly y_poly
   = Raise IndexError) /\
  ((12 <= length x_poly)%nat -> (12 <= length y_poly)%nat ->
   X_res <> 0%Z -> Y_res <> 0%Z -> F_scale <> 0 ->
   length X_data = length Y_data -> length Y_data = length level_data ->
   applyFieldCorrection x_poly y_poly X_res Y_res F_scale X_data Y_data level_data
   = Ok (unzip3 (map (corrected_row x_poly y_poly X_res Y_res F_scale)
                     (combine (combine X_data Y_data) level_data)))).
Proof.
  split; [| split].
  - intros Hx Hy. unfold XY2CorrectedRADec.
    rewrite applyFieldCorrection_app by assumption. reflexivity.
  - intros Hshort HX HY Hne H1 H2.
    pose proof (applyFieldCorrection_short x_poly y_poly X_res Y_res F_scale
                  X_data Y_data level_data Hshort HX HY Hne H1 H2) as E.
    split; [exact E |]. unfold XY2CorrectedRADec. rewrite E. reflexivity.
  - apply applyFieldCorrection_Ok.
Qed.

End Runs.

(** C2 as stated fails: on a track of a single point the orchestrator
    returns a result. *)
Lemma single_point_track_returns :
  XY2CorrectedRADec J2000_clock [noon_2000] [360] [288] [100] 0 0 0 0 720 576 0 0 90
    1.0 1 (-2.5) 10 zero_poly zero_poly
  = Ok ([2451545], [pymod (sidereal 2451545) 360], [0],
        [base_magnitude (-2.5) 10 (100 * (1 + 0.00245 * (sqrt 73728 - 120)))]).
Proof.
  apply (centre_run J2000_clock noon_2000 100 0 1.0 1 (-2.5) 10 zero_poly zero_poly);
    try (rewrite poly_value_zero; reflexivity); try (unfold zero_poly; simpl; lia); lra.
Qed.

(** The single point at the centre of a 720 x 576 image. *)
Lemma orchestrator_has_no_track_guard_witness :
  XY2CorrectedRADec J2000_clock [noon_2000] [360] [288] [100] 0 0 0 0 720 576 0 0 90
    1.0 1 (-2.5) 10 zero_poly zero_poly
  = Ok ([2451545], [pymod (sidereal 2451545) 360], [0],
        calculateMagnitudes [100 * (1 + 0.00245 * (sqrt 73728 - 120))]
          (pymod (sidereal 2451545) 360) (pymod (sidereal 2451545) 360) 0 0
          0 (-2.5) 10 1).
Proof.
  destruct (orchestrator_has_no_track_guard J2000_clock [noon_2000] [360] [288] [100]
              0 0 0 0 720 576 0 0 90 1.0 1 (-2.5) 10 zero_poly zero_poly
              [0] [0] [100 * (1 + 0.00245 * (sqrt 73728 - 120))] [0] [90]
              [2451545] [pymod (sidereal 2451545) 360] [0]) as [_ [_ H]].
  - apply centre_corrected; try (rewrite poly_value_zero; reflexivity);
      try (unfold zero_poly; simpl; lia); lra.
  - exact axis_projected.
  - exact (zenith_converted J2000_clock 0 noon_2000).
  - destruct (H eq_refl) as [_ [_ [_ Hrun]]]. exact Hrun.
Defined.

(** C8 as stated fails: with thirteen coefficients on the X axis and the
    scale -1 the pipeline returns a result. *)
Lemma malformed_calibration_runs :
  XY2CorrectedRADec J2000_clock [noon_2000] [360] [288] [100] 0 0 0 0 720 576 0 0 90
    (-1) 1 (-2.5) 10 (zero_poly ++ [0]) zero_poly
  = Ok ([2451545], [pymod (sidereal 2451545) 360], [0],
        [base_magnitude (-2.5) 10 (100 * (1 + 0.00245 * (sqrt 73728 - 120)))]).
Proof.
  apply (centre_run J2000_clock noon_2000 100 0 (-1) 1 (-2.5) 10 (zero_poly ++ [0]) zero_poly);
    try (rewrite poly_value_zero; reflexivity); try (unfold zero_poly; simpl; lia); try lra.
  unfold poly_value, zero_poly. simpl. lra.
Qed.

(** A thirteenth coefficient on the X axis changes nothing. *)
Lemma calibration_is_not_validated_witness :
  XY2CorrectedRADec J2000_clock [noon_2000] [360] [288] [100] 0 0 0 0 720 576 0 0 90
    (-1) 1 (-2.5) 10 (zero_poly ++ [0]) (zero_poly ++ [])
  = XY2CorrectedRADec J2000_clock [noon_2000] [360] [288] [100] 0 0 0 0 720 576 0 0 90
      (-1) 1 (-2.5) 10 zero_poly zero_poly.
Proof.
  apply (calibration_is_not_validated J2000_clock [noon_2000] [360] [288] [100]
           0 0 0 0 720 576 0 0 90 (-1) 1 (-2.5) 10 zero_poly zero_poly [0] []);
    unfold zero_poly; simpl; lia.
Defined.

(** * Further properties *)

(** ** More on the corrector *)

Lemma mapM_not_Raise {A B : Type} (f : A -> outcome B) (e : exn) (l : list A) :
  (forall a, f a <> Raise e) -> mapM f l <> Raise e.
Proof.
  intro Hf. induction l as [| a l IH]; simpl; [discriminate |].
  destruct (f a) as [b | e' |] eqn:E; cbn [bind].
  - destruct (mapM f l) as [bs | e' |]; cbn [bind]; try discriminate.
    intro H. apply IH. exact H.
  - intro H. inversion H. subst e'. apply (Hf a). exact E.
  - discriminate.
Qed.

Lemma distortion_not_ValueError (poly : list R) (Xdet Ydet a b : R) :
  distortion poly Xdet Ydet a b <> Raise ValueError.
Proof.
  destruct (Nat.lt_ge_cases (length poly) 12) as [H | H].
  - rewrite distortion_short by exact H. discriminate.
  - rewrite distortion_Ok by exact H. discriminate.
Qed.

Lemma correct_point_not_ValueError (x_poly y_poly : list R) (X_res Y_res : Z)
    (F_scale : R) (row : R * R * R) :
  correct_point x_poly y_poly X_res Y_res F_scale row <> Raise ValueError.
Proof.
  destruct row as [[x y] level]. unfold correct_point, to_CIF, np_div.
  destruct (Req_dec_T (IZR X_res / 384) 0); cbn [bind]; [discriminate |].
  destruct (Req_dec_T (IZR Y_res / 288) 0); cbn [bind]; [discriminate |].
  pose proof (distortion_not_ValueError x_poly
                ((x - IZR (X_res / 2)) / (IZR X_res / 384))
                ((y - IZR (Y_res / 2)) / (IZR Y_res / 288))
                ((x - IZR (X_res / 2)) / (IZR X_res / 384))
                ((y - IZR (Y_res / 2)) / (IZR Y_res / 288))) as Dx.
  destruct (distortion x_poly _ _ _ _) as [X | e |]; cbn [bind];
    [| intro H; inversion H; subst e; apply Dx; reflexivity | discriminate].
  pose proof (distortion_not_ValueError y_poly
                ((x - IZR (X_res / 2)) / (IZR X_res / 384))
                ((y - IZR (Y_res / 2)) / (IZR Y_res / 288))
                ((y - IZR (Y_res / 2)) / (IZR Y_res / 288))
                ((x - IZR (X_res / 2)) / (IZR X_res / 384))) as Dy.
  destruct (distortion y_poly _ _ _ _) as [Y | e |]; cbn [bind];
    [| intro H; inversion H; subst e; apply Dy; reflexivity | discriminate].
  destruct (Req_dec_T F_scale 0); cbn [bind]; discriminate.
Qed.

Lemma vstack3_differ (a b c : list R) :
  ~ (length a = length b /\ length b = length c) -> vstack3 a b c = Raise ValueError.
Proof.
  intro H. unfold vstack3.
  destruct (Nat.eqb (length a) (length b)) eqn:E1; [| reflexivity].
  destruct (Nat.eqb (length b) (length c)) eqn:E2; [| reflexivity].
  apply Nat.eqb_eq in E1. apply Nat.eqb_eq in E2. exfalso. apply H. split; assumption.
Qed.

(** What a returned corrected point tells. *)
Lemma correct_point_inv (x_poly y_poly : list R) (X_res Y_res : Z)
    (F_scale x y level X Y L : R) :
  correct_point x_poly y_poly X_res Y_res F_scale (x, y, level) = Ok (X, Y, L) ->
  IZR X_res / 384 <> 0 /\ IZR Y_res / 288 <> 0 /\ F_scale <> 0 /\
  (12 <= length x_poly)%nat /\ (12 <= length y_poly)%nat /\
  (X, Y, L) = corrected_row x_poly y_poly X_res Y_res F_scale (x, y, level).
Proof.
  unfold correct_point, to_CIF, np_div.
  fold (CIF_coord X_res 384 x) (CIF_coord Y_res 288 y).
  destruct (Req_dec_T (IZR X_res / 384) 0) as [| HX]; cbn [bind]; [discriminate |].
  destruct (Req_dec_T (IZR Y_res / 288) 0) as [| HY]; cbn [bind]; [discriminate |].
  destruct (Nat.lt_ge_cases (length x_poly) 12) as [Hx | Hx];
    [rewrite distortion_short by exact Hx; discriminate |].
  rewrite distortion_Ok by exact Hx. cbn [bind].
  destruct (Nat.lt_ge_cases (length y_poly) 12) as [Hy | Hy];
    [rewrite distortion_short by exact Hy; discriminate |].
  rewrite distortion_Ok by exact Hy. cbn [bind].
  destruct (Req_dec_T F_scale 0) as [| HF]; cbn [bind]; [discriminate |].
  intro H. inversion H. repeat split; assumption.
Qed.

(** The corrected point of index [i] of a run that returns. *)
Lemma applyFieldCorrection_at (x_poly y_poly : list R) (X_res Y_res : Z)
    (F_scale : R) (X_data Y_data level_data Xc Yc Lc : list R)
    (i : nat) (x y level : R) :
  applyFieldCorrection x_poly y_poly X_res Y_res F_scale X_data Y_data level_data
  = Ok (Xc, Yc, Lc) ->
  nth_error X_data i = Some x -> nth_error Y_data i = Some y ->
  nth_error level_data i = Some level ->
  exists X Y L,
    nth_error Xc i = Some X /\ nth_error Yc i = Some Y /\ nth_error Lc i = Some L /\
    correct_point x_poly y_poly X_res Y_res F_scale (x, y, level) = Ok (X, Y, L).
Proof.
  unfold applyFieldCorrection. intros H Hx Hy Hl.
  destruct (vstack3 X_data Y_data level_data) as [m | e |] eqn:Ev; cbn [bind] in H;
    try discriminate.
  destruct (mapM _ m) as [out | e |] eqn:Em; cbn [bind] in H; try discriminate.
  apply vstack3_inv in Ev. destruct Ev as [_ [_ [Hm _]]]. subst m.
  unfold unzip3 in H. inversion H. subst Xc Yc Lc.
  pose proof (nth_error_combine _ _ i _ _ (nth_error_combine _ _ i _ _ Hx Hy) Hl) as Hrow.
  pose proof (mapM_length _ _ _ Em) as Hlen.
  assert (Hi : (i < length out)%nat).
  { rewrite Hlen. apply nth_error_Some. rewrite Hrow. discriminate. }
  destruct (nth_error out i) as [[[X Y] L] |] eqn:Eo;
    [| apply nth_error_None in Eo; lia].
  exists X, Y, L. rewrite !nth_error_map, Eo. simpl.
  repeat split. apply (mapM_nth_error _ _ _ i _ _ Em Hrow Eo).
Qed.

(** X1.  The corrector raises a value error exactly when its three input
    arrays do not have one length, and then the whole pipeline raises it,
    before any point is corrected. *)
Theorem corrector_refuses_unequal_lengths (time_data : list timestamp)
    (date2JD : Z -> Z -> Z -> Z -> Z -> Z -> Z -> R -> R)
    (X_data Y_data level_data : list R) (UT_corr lat lon Ho : R) (X_res Y_res : Z)
    (RA_d dec_d rot_param F_scale w_pix mag_0 mag_lev : R) (x_poly y_poly : list R) :
  (applyFieldCorrection x_poly y_poly X_res Y_res F_scale X_data Y_data level_data
   = Raise ValueError
   <-> ~ (length X_data = length Y_data /\ length Y_data = length level_data)) /\
  (~ (length X_data = length Y_data /\ length Y_data = length level_data) ->
   XY2CorrectedRADec date2JD time_data X_data Y_data level_data UT_corr lat lon Ho
     X_res Y_res RA_d dec_d rot_param F_scale w_pix mag_0 mag_lev x_poly y_poly
   = Raise ValueError).
Proof.
  assert (Hd : ~ (length X_data = length Y_data /\ length Y_data = length level_data) ->
               applyFieldCorrection x_poly y_poly X_res Y_res F_scale
                 X_data Y_data level_data = Raise ValueError).
  { intro H. unfold applyFieldCorrection. rewrite (vstack3_differ _ _ _ H). reflexivity. }
  split; [split; [| exact Hd] |].
  - intros H [H1 H2]. unfold applyFieldCorrection in H.
    rewrite vstack3_Ok in H by assumption. cbn [bind] in H.
    pose proof (mapM_not_Raise (correct_point x_poly y_poly X_res Y_res F_scale) ValueError
                  (combine (combine X_data Y_data) level_data)
                  (correct_point_not_ValueError x_poly y_poly X_res Y_res F_scale)) as Hm.
    destruct (mapM _ _) as [out | e |]; cbn [bind] in H; try discriminate.
    inversion H. subst e. apply Hm. reflexivity.
  - intro H. unfold XY2CorrectedRADec. rewrite (Hd H). reflexivity.
Qed.

(** Two X coordinates for one Y coordinate and one level. *)
Lemma corrector_refuses_unequal_lengths_witness :
  XY2CorrectedRADec J2000_clock [noon_2000] [360; 361] [288] [100] 0 0 0 0 720 576 0 0 90
    1 1 (-2.5) 10 zero_poly zero_poly
  = Raise ValueError.
Proof.
  apply (corrector_refuses_unequal_lengths [noon_2000] J2000_clock [360; 361] [288] [100]
           0 0 0 0 720 576 0 0 90 1 1 (-2.5) 10 zero_poly zero_poly).
  simpl. intros [H _]. discriminate.
Defined.

Lemma vignetting_ge (Xdet Ydet level : R) : 0 <= level -> level <= vignetting Xdet Ydet level.
Proof.
  intro H. unfold vignetting.
  destruct (Rlt_dec 120 (vignetting_radius Xdet Ydet)); [nra | lra].
Qed.

Lemma vignetting_within (Xdet Ydet level : R) :
  vignetting_radius Xdet Ydet <= 120 -> vignetting Xdet Ydet level = level.
Proof.
  intro H. unfold vignetting.
  destruct (Rlt_dec 120 (vignetting_radius Xdet Ydet)); [lra | reflexivity].
Qed.

(** X2.  The corrector never lowers a level that is not negative, and it
    leaves the level as it is where the vignetting radius is at most 120. *)
Theorem corrector_never_lowers_level (x_poly y_poly : list R) (X_res Y_res : Z)
    (F_scale : R) (X_data Y_data level_data Xc Yc Lc : list R)
    (i : nat) (x y level L : R) :
  applyFieldCorrection x_poly y_poly X_res Y_res F_scale X_data Y_data level_data
  = Ok (Xc, Yc, Lc) ->
  nth_error X_data i = Some x -> nth_error Y_data i = Some y ->
  nth_error level_data i = Some level -> nth_error Lc i = Some L ->
  (0 <= level -> level <= L) /\
  (CIF_radius X_res Y_res x y <= 120 -> L = level).
Proof.
  intros H Hx Hy Hl HL.
  rewrite (applyFieldCorrection_level_at _ _ _ _ _ _ _ _ _ _ _ i x y level L H Hx Hy Hl HL).
  split; [apply vignetting_ge | apply vignetting_within].
Qed.

(** The centre of a 384 x 288 image at level 100. *)
Lemma corrector_never_lowers_level_witness :
  100 <= 100 * (1 + 0.00245 * (sqrt 73728 - 120)).
Proof.
  destruct (corrector_never_lowers_level zero_poly zero_poly 384 288 1
              [192] [144] [100] [0] [0] [100 * (1 + 0.00245 * (sqrt 73728 - 120))]
              0 192 144 100 (100 * (1 + 0.00245 * (sqrt 73728 - 120)))
              (corrected_384_192 100) eq_refl eq_refl eq_refl eq_refl) as [H _].
  apply H. lra.
Defined.

Lemma mapM_map_inv {A B C : Type} (f : A -> outcome B) (g : B -> C) (h : A -> C)
    (l : list A) :
  (forall a b, In a l -> f a = Ok b -> g b = h a) ->
  forall out, mapM f l = Ok out -> map g out = map h l.
Proof.
  induction l as [| a l IH]; intros Hf out H; simpl in H.
  - inversion H. reflexivity.
  - destruct (f a) as [b | e |] eqn:E; cbn [bind] in H; try discriminate.
    destruct (mapM f l) as [bs | e |] eqn:El; cbn [bind] in H; try discriminate.
    inversion H. simpl. f_equal.
    + apply (Hf a b); [left; reflexivity | exact E].
    + apply IH; [| reflexivity]. intros a' b' Hin. apply Hf. right. exact Hin.
Qed.

Lemma map_fst_combine {A B : Type} (l : list A) (l' : list B) :
  length l = length l' -> map fst (combine l l') = l.
Proof.
  revert l'. induction l as [| a l IH]; intros [| b l'] H; simpl in *;
    try reflexivity; try discriminate.
  f_equal. apply IH. lia.
Qed.

Lemma map_snd_combine {A B : Type} (l : list A) (l' : list B) :
  length l = length l' -> map snd (combine l l') = l'.
Proof.
  revert l'. induction l as [| a l IH]; intros [| b l'] H; simpl in *;
    try reflexivity; try discriminate.
  f_equal. apply IH. lia.
Qed.

(** The corrected levels of a run that returns: the vignetting correction
    of each level at the CIF coordinates of its point. *)
Lemma applyFieldCorrection_levels (x_poly y_poly : list R) (X_res Y_res : Z)
    (F_scale : R) (X_data Y_data level_data Xc Yc Lc : list R) :
  applyFieldCorrection x_poly y_poly X_res Y_res F_scale X_data Y_data level_data
  = Ok (Xc, Yc, Lc) ->
  Lc = map (fun row : R * R * R =>
              vignetting (CIF_coord X_res 384 (fst (fst row)))
                         (CIF_coord Y_res 288 (snd (fst row))) (snd row))
           (combine (combine X_data Y_data) level_data).
Proof.
  unfold applyFieldCorrection. intro H.
  destruct (vstack3 X_data Y_data level_data) as [m | e |] eqn:Ev; cbn [bind] in H;
    try discriminate.
  destruct (mapM _ m) as [out | e |] eqn:Em; cbn [bind] in H; try discriminate.
  apply vstack3_inv in Ev. destruct Ev as [_ [_ [Hm _]]]. subst m.
  unfold unzip3 in H. inversion H.
  eapply mapM_map_inv; [| exact Em].
  intros [[x y] level] [[X Y] L] _ Hab. simpl.
  apply (correct_point_level x_poly y_poly X_res Y_res F_scale x y level X Y L Hab).
Qed.

(** X3.  The corrected levels depend on the points, the levels and the
    resolutions only: two runs that differ in the distortion coefficients
    and in the scale return the same levels. *)
Theorem corrector_levels_ignore_distortion (x_poly y_poly x_poly' y_poly' : list R)
    (X_res Y_res : Z) (F_scale F_scale' : R)
    (X_data Y_data level_data Xc Yc Lc Xc' Yc' Lc' : list R) :
  applyFieldCorrection x_poly y_poly X_res Y_res F_scale X_data Y_data level_data
  = Ok (Xc, Yc, Lc) ->
  applyFieldCorrection x_poly' y_poly' X_res Y_res F_scale' X_data Y_data level_data
  = Ok (Xc', Yc', Lc') ->
  Lc = Lc'.
Proof.
  intros H H'.
  rewrite (applyFieldCorrection_levels _ _ _ _ _ _ _ _ _ _ _ H).
  rewrite (applyFieldCorrection_levels _ _ _ _ _ _ _ _ _ _ _ H').
  reflexivity.
Qed.

Lemma nth_all_zero (poly : list R) (k : nat) :
  Forall (fun c => c = 0) poly -> nth k poly 0 = 0.
Proof.
  intro H. revert k. induction H as [| c l Hc _ IH]; intros [| k]; simpl;
    try reflexivity; [exact Hc | apply IH].
Qed.

Lemma poly_value_all_zero (poly : list R) (Xdet Ydet a b : R) :
  Forall (fun c => c = 0) poly -> poly_value poly Xdet Ydet a b = a.
Proof.
  intro H. unfold poly_value. rewrite !(nth_all_zero poly _ H). lra.
Qed.

(** X4.  With all distortion coefficients zero the corrector only rescales:
    multiplying a corrected coordinate by the scale and by the CIF factor
    of its axis, and adding the half resolution, gives back the detected
    coordinate, for every point of a run that returns. *)
Theorem corrector_without_distortion_rescales (x_poly y_poly : list R) (X_res Y_res : Z)
    (F_scale : R) (X_data Y_data level_data Xc Yc Lc : list R) :
  Forall (fun c => c = 0) x_poly -> Forall (fun c => c = 0) y_poly ->
  applyFieldCorrection x_poly y_poly X_res Y_res F_scale X_data Y_data level_data
  = Ok (Xc, Yc, Lc) ->
  map (fun X => X * F_scale * (IZR X_res / 384) + IZR (X_res / 2)) Xc = X_data /\
  map (fun Y => Y * F_scale * (IZR Y_res / 288) + IZR (Y_res / 2)) Yc = Y_data.
Proof.
  intros Zx Zy. unfold applyFieldCorrection. intro H.
  destruct (vstack3 X_data Y_data level_data) as [m | e |] eqn:Ev; cbn [bind] in H;
    try discriminate.
  destruct (mapM _ m) as [out | e |] eqn:Em; cbn [bind] in H; try discriminate.
  apply vstack3_inv in Ev. destruct Ev as [L1 [L2 [Hm _]]]. subst m.
  unfold unzip3 in H. inversion H. rewrite !map_map.
  assert (HX : map (fun row : R * R * R => fst (fst row))
                   (combine (combine X_data Y_data) level_data) = X_data).
  { rewrite <- (map_map fst fst), map_fst_combine by (rewrite length_combine; lia).
    apply map_fst_combine. exact L1. }
  assert (HY : map (fun row : R * R * R => snd (fst row))
                   (combine (combine X_data Y_data) level_data) = Y_data).
  { rewrite <- (map_map fst snd), map_fst_combine by (rewrite length_combine; lia).
    apply map_snd_combine. exact L1. }
  split.
  - etransitivity; [| exact HX]. eapply mapM_map_inv; [| exact Em].
    intros [[x y] level] [[X Y] L] _ Hab.
    apply correct_point_inv in Hab.
    destruct Hab as [HXr [HYr [HF [_ [_ E]]]]]. unfold corrected_row in E.
    injection E as EX EY EL. subst X. simpl. rewrite poly_value_all_zero by exact Zx.
    assert (HX0 : IZR X_res <> 0)
      by (intro E0; apply HXr; rewrite E0; unfold Rdiv; apply Rmult_0_l).
    unfold CIF_coord. field. split; assumption.
  - etransitivity; [| exact HY]. eapply mapM_map_inv; [| exact Em].
    intros [[x y] level] [[X Y] L] _ Hab.
    apply correct_point_inv in Hab.
    destruct Hab as [HXr [HYr [HF [_ [_ E]]]]]. unfold corrected_row in E.
    injection E as EX EY EL. subst Y. simpl. rewrite poly_value_all_zero by exact Zy.
    assert (HY0 : IZR Y_res <> 0)
      by (intro E0; apply HYr; rewrite E0; unfold Rdiv; apply Rmult_0_l).
    unfold CIF_coord. field. split; assumption.
Qed.

Lemma zero_poly_all_zero : Forall (fun c => c = 0) zero_poly.
Proof. unfold zero_poly. simpl. repeat constructor. Qed.

(** The centre of a 384 x 288 image. *)
Lemma corrector_without_distortion_rescales_witness :
  map (fun X => X * 1 * (IZR 384 / 384) + IZR (384 / 2)) [0] = [192] /\
  map (fun Y => Y * 1 * (IZR 288 / 288) + IZR (288 / 2)) [0] = [144].
Proof.
  apply (corrector_without_distortion_rescales zero_poly zero_poly 384 288 1
           [192] [144] [100] [0] [0] [100 * (1 + 0.00245 * (sqrt 73728 - 120))]).
  - exact zero_poly_all_zero.
  - exact zero_poly_all_zero.
  - apply corrected_384_192.
Defined.

(** Two points under two calibrations. *)
Lemma corrector_levels_ignore_distortion_witness :
  map snd (map (corrected_row zero_poly zero_poly 384 288 1)
               (combine (combine [192; 191] [144; 144]) [100; 50]))
  = map snd (map (corrected_row (repeat 1 12) (repeat 2 13) 384 288 (-3))
                 (combine (combine [192; 191] [144; 144]) [100; 50])).
Proof.
  eapply (corrector_levels_ignore_distortion zero_poly zero_poly (repeat 1 12) (repeat 2 13)
            384 288 1 (-3) [192; 191] [144; 144] [100; 50]).
  - apply applyFieldCorrection_Ok; try reflexivity; try discriminate;
      try (unfold zero_poly; simpl; lia); lra.
  - apply applyFieldCorrection_Ok; try reflexivity; try discriminate;
      try (simpl; lia); lra.
Defined.

(** ** More on the projector *)

Lemma atan2_bound_right (y x : R) : 0 <= x -> - (PI / 2) <= atan2 y x <= PI / 2.
Proof.
  intro Hx. unfold atan2. pose proof PI_RGT_0 as Hpi.
  destruct (Rlt_dec 0 x).
  - pose proof (atan_bound (y / x)). lra.
  - destruct (Rlt_dec x 0); [lra |].
    destruct (Rlt_dec 0 y); [lra |]. destruct (Rlt_dec y 0); lra.
Qed.

Lemma project_point_altitude (lat RA_d Ho rot_param dec_rad sl cl : R) (row : R * R)
    (azimuth altitude : R) :
  project_point lat RA_d Ho rot_param dec_rad sl cl row = Ok (azimuth, altitude) ->
  -90 <= altitude <= 90.
Proof.
  destruct row as [X_pix Y_pix]. unfold project_point, project_point_with.
  destruct (math_sqrt _) as [root | e |]; cbn [bind]; try discriminate.
  destruct (py_div _ _) as [sin_t | e |]; cbn [bind]; try discriminate.
  destruct (py_div _ _) as [cos_t | e |]; cbn [bind]; try discriminate.
  destruct (math_sqrt _) as [r | e |] eqn:Er; cbn [bind]; try discriminate.
  intro H. inversion H. apply degrees_bound. apply atan2_bound_right.
  unfold math_sqrt in Er. destruct (Rlt_dec _ 0); [discriminate |].
  inversion Er. apply sqrt_pos.
Qed.

(** X5.  Every altitude that the sky projector returns lies in [-90, 90]. *)
Theorem altitudes_between_horizon_poles (lat lon RA_d dec_d Ho rot_param : R)
    (X_data Y_data az_data alt_data : list R) :
  XY2altAz lat lon RA_d dec_d Ho rot_param X_data Y_data = Ok (az_data, alt_data) ->
  Forall (fun alt => -90 <= alt <= 90) alt_data.
Proof.
  intro Hp. unfold XY2altAz, XY2altAz_with in Hp.
  destruct (vstack2 X_data Y_data) as [m | e |]; cbn [bind] in Hp; try discriminate.
  destruct (mapM _ m) as [out | e |] eqn:Em; cbn [bind] in Hp; try discriminate.
  inversion Hp. subst. apply Forall_map.
  eapply mapM_Forall; [| exact Em].
  intros row [az alt] Hrow. simpl. eapply project_point_altitude. exact Hrow.
Qed.

(** The projector at the optical axis. *)
Lemma altitudes_between_horizon_poles_witness :
  Forall (fun alt => -90 <= alt <= 90) [90].
Proof.
  apply (altitudes_between_horizon_poles 0 0 0 0 0 90 [0] [0] [0] [90]).
  exact axis_projected.
Defined.

Lemma Int_part_minus_1 (x : R) : Int_part (x - 1) = (Int_part x - 1)%Z.
Proof.
  symmetry. apply Int_part_spec. rewrite minus_IZR.
  destruct (base_Int_part x) as [H1 H2]. simpl. lra.
Qed.

Lemma pymod_minus_turn (x : R) : pymod (x - 360) 360 = pymod x 360.
Proof.
  unfold pymod. replace ((x - 360) / 360) with (x / 360 - 1) by lra.
  rewrite Int_part_minus_1, minus_IZR. simpl. lra.
Qed.

Lemma sin_radians_turn (x : R) : sin (radians (x + 360)) = sin (radians x).
Proof.
  replace (radians (x + 360)) with (radians x + 2 * PI) by (unfold radians; lra).
  rewrite sin_plus, cos_2PI, sin_2PI. ring.
Qed.

Lemma cos_radians_turn (x : R) : cos (radians (x + 360)) = cos (radians x).
Proof.
  replace (radians (x + 360)) with (radians x + 2 * PI) by (unfold radians; lra).
  rewrite cos_plus, cos_2PI, sin_2PI. ring.
Qed.

Lemma project_point_turn_rot (lat RA_d Ho rot_param dec_rad sl cl : R) (row : R * R) :
  project_point lat RA_d Ho (rot_param + 360) dec_rad sl cl row
  = project_point lat RA_d Ho rot_param dec_rad sl cl row.
Proof.
  destruct row as [X_pix Y_pix]. unfold project_point, project_point_with.
  replace (90 - (rot_param + 360) + degrees (atan2 Y_pix X_pix))
    with (90 - rot_param + degrees (atan2 Y_pix X_pix) - 360) by lra.
  rewrite pymod_minus_turn. reflexivity.
Qed.

Lemma project_point_turn_Ho (lat RA_d Ho rot_param dec_rad sl cl : R) (row : R * R) :
  project_point lat RA_d (Ho + 360) rot_param dec_rad sl cl row
  = project_point lat RA_d Ho rot_param dec_rad sl cl row.
Proof.
  destruct row as [X_pix Y_pix]. unfold project_point, project_point_with.
  destruct (math_sqrt _) as [root | e |]; cbn [bind]; try reflexivity.
  destruct (py_div _ _) as [sin_t | e |]; cbn [bind]; try reflexivity.
  destruct (py_div _ _) as [cos_t | e |]; cbn [bind]; try reflexivity.
  replace (Ho + 360 + lat - (RA_d - pymod (degrees (atan2 sin_t cos_t)) 360))
    with (Ho + lat - (RA_d - pymod (degrees (atan2 sin_t cos_t)) 360) + 360) by lra.
  rewrite sin_radians_turn, cos_radians_turn. reflexivity.
Qed.

(** X6.  The sky projector takes the field rotation and the referent hour
    angle modulo a full turn: 360 degrees more on either gives the same
    outcome, in exact arithmetic. *)
Theorem projector_full_turn (lat lon RA_d dec_d Ho rot_param : R) (X_data Y_data : list R) :
  XY2altAz lat lon RA_d dec_d Ho (rot_param + 360) X_data Y_data
  = XY2altAz lat lon RA_d dec_d Ho rot_param X_data Y_data /\
  XY2altAz lat lon RA_d dec_d (Ho + 360) rot_param X_data Y_data
  = XY2altAz lat lon RA_d dec_d Ho rot_param X_data Y_data.
Proof.
  unfold XY2altAz, XY2altAz_with. split.
  - destruct (vstack2 X_data Y_data) as [m | e |]; cbn [bind]; try reflexivity.
    rewrite (mapM_ext _ (project_point lat RA_d Ho rot_param (radians dec_d)
                           (sin (radians lon)) (cos (radians lon))));
      [reflexivity | intro row; apply project_point_turn_rot].
  - destruct (vstack2 X_data Y_data) as [m | e |]; cbn [bind]; try reflexivity.
    rewrite (mapM_ext _ (project_point lat RA_d Ho rot_param (radians dec_d)
                           (sin (radians lon)) (cos (radians lon))));
      [reflexivity | intro row; apply project_point_turn_Ho].
Qed.

(** ** More on the converter *)

Section MoreConverter.

Variable date2JD : Z -> Z -> Z -> Z -> Z -> Z -> Z -> R -> R.

Lemma convert_point_missing_time (lat UT_corr sl cl : R) (time_data : list timestamp)
    (i : nat) (row : R * R) :
  (length time_data <= i)%nat ->
  convert_point date2JD lat UT_corr sl cl time_data (i, row) = Raise IndexError.
Proof.
  intro H. destruct row as [azimuth altitude]. unfold convert_point, convert_point_with, index.
  apply nth_error_None in H. rewrite H. reflexivity.
Qed.

(** The loop of the converter over the rows from index [s] on. *)
Lemma convert_rows (lat UT_corr lon : R) (time_data : list timestamp) (m : list (R * R)) :
  forall s : nat,
    (s <= length time_data)%nat ->
    ((s + length m <= length time_data)%nat ->
     exists out,
       mapM (convert_point date2JD lat UT_corr (sin (radians lon)) (cos (radians lon))
               time_data) (combine (seq s (length m)) m) = Ok out) /\
    ((length time_data < s + length m)%nat ->
     mapM (convert_point date2JD lat UT_corr (sin (radians lon)) (cos (radians lon))
             time_data) (combine (seq s (length m)) m) = Raise IndexError).
Proof.
  induction m as [| [azimuth altitude] m IH]; intros s Hs0;
    cbn [length seq combine mapM].
  - split; [intros _; exists []; reflexivity | lia].
  - destruct (Nat.lt_ge_cases s (length time_data)) as [Hs | Hs].
    + destruct (IH (S s)) as [IHok IHraise]; [lia |].
      destruct (nth_error time_data s) as [t |] eqn:Et;
        [| apply nth_error_None in Et; lia].
      destruct (convert_point_Ok date2JD lat UT_corr lon time_data s azimuth altitude t Et)
        as [JD [RA [dec E]]].
      rewrite E. cbn [bind]. split; intro H.
      * destruct IHok as [out Eo]; [lia |]. rewrite Eo. cbn [bind]. eexists. reflexivity.
      * rewrite IHraise by lia. reflexivity.
    + rewrite convert_point_missing_time by exact Hs. cbn [bind].
      split; [lia | reflexivity].
Qed.

(** X7.  The errors of the converter say what is wrong with its arrays.  It
    raises a value error when the azimuth and altitude arrays differ in
    length; an index error is raised only when the arrays are equally long
    and there are fewer time rows than points; and it returns only when the
    arrays are equally long and every point has its time row. *)
Theorem converter_outcome (lat lon UT_corr : R) (time_data : list timestamp)
    (azimuth_data altitude_data : list R) :
  (length azimuth_data <> length altitude_data ->
   altAz2RADec date2JD lat lon UT_corr time_data azimuth_data altitude_data
   = Raise ValueError) /\
  (altAz2RADec date2JD lat lon UT_corr time_data azimuth_data altitude_data
   = Raise IndexError ->
   length azimuth_data = length altitude_data /\
   (length time_data < length azimuth_data)%nat) /\
  (forall JD_data RA_data dec_data,
     altAz2RADec date2JD lat lon UT_corr time_data azimuth_data altitude_data
     = Ok (JD_data, RA_data, dec_data) ->
     length azimuth_data = length altitude_data /\
     (length azimuth_data <= length time_data)%nat).
Proof.
  unfold altAz2RADec, altAz2RADec_with, vstack2, enumerate.
  fold (convert_point date2JD).
  destruct (Nat.eqb (length azimuth_data) (length altitude_data)) eqn:El.
  - apply Nat.eqb_eq in El. cbn [bind].
    destruct (convert_rows lat UT_corr lon time_data (combine azimuth_data altitude_data) 0)
      as [Hok Hr]; [lia |].
    assert (Hl : length (combine azimuth_data altitude_data) = length azimuth_data)
      by (rewrite length_combine; lia).
    rewrite Hl in Hok, Hr. rewrite Hl. simpl in Hok, Hr.
    split; [intro H; contradiction |].
    destruct (Nat.lt_ge_cases (length time_data) (length azimuth_data)) as [Hlt | Hge].
    + rewrite (Hr Hlt). cbn [bind].
      split; [intros _; split; assumption | intros ? ? ? H; discriminate].
    + destruct (Hok Hge) as [out Eo]. rewrite Eo. cbn [bind].
      split; [intro H; discriminate | intros ? ? ? _; split; assumption].
  - cbn [bind]. split; [reflexivity |]. split; [intro H; discriminate |].
    intros ? ? ? H. discriminate.
Qed.

Lemma nth_error_enumerate {A : Type} (l : list A) (i : nat) (a : A) :
  nth_error l i = Some a -> nth_error (enumerate l) i = Some (i, a).
Proof.
  intro H. unfold enumerate. apply nth_error_combine; [| exact H].
  assert (Hi : (i < length l)%nat) by (apply nth_error_Some; rewrite H; discriminate).
  rewrite nth_error_seq. apply Nat.ltb_lt in Hi. rewrite Hi. reflexivity.
Qed.

(** X8.  In a run of the converter that returns, the outputs of index [i]
    are those of the point of index [i] with the time row of index [i]
    alone, and the Julian date is [date2JD] of that row. *)
Theorem converter_keeps_index (lat lon UT_corr : R) (time_data : list timestamp)
    (azimuth_data altitude_data JD_data RA_data dec_data : list R)
    (i : nat) (azimuth altitude : R) :
  altAz2RADec date2JD lat lon UT_corr time_data azimuth_data altitude_data
  = Ok (JD_data, RA_data, dec_data) ->
  nth_error azimuth_data i = Some azimuth -> nth_error altitude_data i = Some altitude ->
  exists t JD RA dec,
    nth_error time_data i = Some t /\
    nth_error JD_data i = Some JD /\
    nth_error RA_data i = Some RA /\
    nth_error dec_data i = Some dec /\
    JD = date2JD (year t) (month t) (day t) (hour t) (minute t) (second t)
           (millisecond t) UT_corr /\
    altAz2RADec date2JD lat lon UT_corr [t] [azimuth] [altitude] = Ok ([JD], [RA], [dec]).
Proof.
  unfold altAz2RADec, altAz2RADec_with. intros H Haz Halt.
  destruct (vstack2 azimuth_data altitude_data) as [m | e |] eqn:Ev; cbn [bind] in H;
    try discriminate.
  destruct (mapM _ (enumerate m)) as [out | e |] eqn:Em; cbn [bind] in H; try discriminate.
  apply vstack2_inv in Ev. destruct Ev as [_ [Hm _]]. subst m.
  unfold unzip3 in H. inversion H. subst JD_data RA_data dec_data.
  pose proof (nth_error_enumerate _ i _ (nth_error_combine _ _ i _ _ Haz Halt)) as Hrow.
  pose proof (mapM_length _ _ _ Em) as Hlen.
  assert (Hi : (i < length out)%nat).
  { rewrite Hlen. apply nth_error_Some. rewrite Hrow. discriminate. }
  destruct (nth_error out i) as [[[JD RA] dec] |] eqn:Eo;
    [| apply nth_error_None in Eo; lia].
  pose proof (mapM_nth_error _ _ _ i _ _ Em Hrow Eo) as Hpt.
  rewrite !nth_error_map, Eo. cbn [option_map fst snd].
  unfold vstack2, enumerate. cbn [length Nat.eqb bind combine seq mapM].
  unfold convert_point, convert_point_with, index in Hpt |- *.
  destruct (nth_error time_data i) as [t |] eqn:Et; cbn [bind] in Hpt; [| discriminate].
  exists t, JD, RA, dec. cbn [nth_error bind].
  destruct (math_asin _) as [d | e |]; cbn [bind] in Hpt |- *; try discriminate.
  inversion Hpt. repeat split; reflexivity.
Qed.

End MoreConverter.

(** The converter at the zenith. *)
Lemma converter_keeps_index_witness :
  exists t JD RA dec,
    nth_error [noon_2000] 0 = Some t /\
    nth_error [2451545] 0 = Some JD /\
    nth_error [pymod (sidereal 2451545) 360] 0 = Some RA /\
    nth_error [0] 0 = Some dec /\
    JD = J2000_clock (year t) (month t) (day t) (hour t) (minute t) (second t)
           (millisecond t) 0 /\
    altAz2RADec J2000_clock 0 0 0 [t] [0] [90] = Ok ([JD], [RA], [dec]).
Proof.
  apply (converter_keeps_index J2000_clock 0 0 0 [noon_2000] [0] [90]
           [2451545] [pymod (sidereal 2451545) 360] [0] 0 0 90);
    [exact (zenith_converted J2000_clock 0 noon_2000) | reflexivity | reflexivity].
Defined.

(** Two azimuths and one altitude. *)
Lemma converter_outcome_witness :
  altAz2RADec J2000_clock 0 0 0 [noon_2000] [0; 10] [90] = Raise ValueError.
Proof.
  apply (converter_outcome J2000_clock 0 0 0 [noon_2000] [0; 10] [90]).
  simpl. lia.
Defined.

(** ** More on the converter and the orchestrator *)

Section MoreOrchestrator.

Variable date2JD : Z -> Z -> Z -> Z -> Z -> Z -> Z -> R -> R.

Lemma pymod_plus_turn (x : R) : pymod (x + 360) 360 = pymod x 360.
Proof.
  rewrite <- (pymod_minus_turn (x + 360)). f_equal. lra.
Qed.

(** X9.  The converter takes the angle [lat] that it adds to the sidereal
    angle modulo a full turn: 360 degrees more gives the same outcome, in
    exact arithmetic. *)
Theorem converter_full_turn (lat lon UT_corr : R) (time_data : list timestamp)
    (azimuth_data altitude_data : list R) :
  altAz2RADec date2JD (lat + 360) lon UT_corr time_data azimuth_data altitude_data
  = altAz2RADec date2JD lat lon UT_corr time_data azimuth_data altitude_data.
Proof.
  unfold altAz2RADec, altAz2RADec_with.
  destruct (vstack2 azimuth_data altitude_data) as [m | e |]; cbn [bind]; try reflexivity.
  rewrite (mapM_ext _ (convert_point date2JD lat UT_corr (sin (radians lon))
                         (cos (radians lon)) time_data)); [reflexivity |].
  intros [i [azimuth altitude]]. unfold convert_point, convert_point_with.
  destruct (index time_data i) as [t | e |]; cbn [bind]; try reflexivity.
  match goal with
  | |- context [pymod (?h + (lat + 360) - ?a) 360] =>
      replace (h + (lat + 360) - a) with (h + lat - a + 360) by lra
  end.
  rewrite pymod_plus_turn. reflexivity.
Qed.

(** The converter returns only with a time for every point. *)
Lemma altAz2RADec_times (lat lon UT_corr : R) (time_data : list timestamp)
    (azimuth_data altitude_data JD_data RA_data dec_data : list R) :
  altAz2RADec date2JD lat lon UT_corr time_data azimuth_data altitude_data
  = Ok (JD_data, RA_data, dec_data) ->
  (length azimuth_data <= length time_data)%nat.
Proof.
  unfold altAz2RADec, altAz2RADec_with, enumerate. intro H.
  fold (convert_point date2JD) in H.
  destruct (vstack2 azimuth_data altitude_data) as [m | e |] eqn:Ev; cbn [bind] in H;
    try discriminate.
  apply vstack2_inv in Ev. destruct Ev as [_ [_ Hm]].
  destruct (Nat.le_gt_cases (length azimuth_data) (length time_data)) as [Hle | Hgt];
    [exact Hle |].
  destruct (convert_rows date2JD lat UT_corr lon time_data m 0) as [_ Hr]; [lia |].
  rewrite Hr in H by lia. discriminate.
Qed.

(** X10.  When the pipeline returns, the track is not empty, its coordinate
    and level arrays have one length, there is a time row for every point,
    and the four returned arrays have the length of the track. *)
Theorem pipeline_keeps_track_length (time_data : list timestamp)
    (X_data Y_data level_data : list R) (UT_corr lat lon Ho : R) (X_res Y_res : Z)
    (RA_d dec_d rot_param F_scale w_pix mag_0 mag_lev : R) (x_poly y_poly : list R)
    (JD_data RA_data dec_data : list R) (magnitude_data : list xreal) :
  XY2CorrectedRADec date2JD time_data X_data Y_data level_data UT_corr lat lon Ho
    X_res Y_res RA_d dec_d rot_param F_scale w_pix mag_0 mag_lev x_poly y_poly
  = Ok (JD_data, RA_data, dec_data, magnitude_data) ->
  X_data <> [] /\
  length Y_data = length X_data /\ length level_data = length X_data /\
  (length X_data <= length time_data)%nat /\
  length JD_data = length X_data /\ length RA_data = length X_data /\
  length dec_data = length X_data /\ length magnitude_data = length X_data.
Proof.
  unfold XY2CorrectedRADec. intro H.
  destruct (applyFieldCorrection x_poly y_poly X_res Y_res F_scale X_data Y_data level_data)
    as [[[Xc Yc] Lc] | e |] eqn:Hc; cbn [bind] in H; try discriminate.
  destruct (XY2altAz lat lon RA_d dec_d Ho rot_param Xc Yc) as [[az alt] | e |] eqn:Hp;
    cbn [bind] in H; try discriminate.
  destruct (altAz2RADec date2JD lat lon UT_corr time_data az alt)
    as [[[JD RA] dec] | e |] eqn:He; cbn [bind] in H; try discriminate.
  pose proof (applyFieldCorrection_length _ _ _ _ _ _ _ _ _ _ _ Hc) as [LX [_ LL]].
  pose proof (XY2altAz_length _ _ _ _ _ _ _ _ _ _ Hp) as [La _].
  pose proof (altAz2RADec_length _ _ _ _ _ _ _ _ _ _ He) as [LJ [LR LD]].
  pose proof (altAz2RADec_times _ _ _ _ _ _ _ _ _ He) as Lt.
  assert (Hin : length X_data = length Y_data /\ length Y_data = length level_data).
  { unfold applyFieldCorrection in Hc.
    destruct (vstack3 X_data Y_data level_data) as [m | e |] eqn:Ev; cbn [bind] in Hc;
      try discriminate.
    apply vstack3_inv in Ev. tauto. }
  destruct (index RA 0) as [ra_beg | e |] eqn:E0; cbn [bind] in H; try discriminate.
  assert (Hne : X_data <> []).
  { intro E. subst X_data. simpl in LX. destruct RA; [discriminate | simpl in *; lia]. }
  destruct (index_last RA); cbn [bind] in H; try discriminate.
  destruct (index dec 0); cbn [bind] in H; try discriminate.
  destruct (index_last dec); cbn [bind] in H; try discriminate.
  destruct (index_last JD); cbn [bind] in H; try discriminate.
  destruct (index JD 0); cbn [bind] in H; try discriminate.
  inversion H. subst. unfold calculateMagnitudes. rewrite length_map.
  repeat split; try assumption; lia.
Qed.

End MoreOrchestrator.

(** The single point at the centre of a 720 x 576 image. *)
Lemma pipeline_keeps_track_length_witness :
  [360] <> [] /\
  length [288] = length [360] /\ length [100] = length [360] /\
  (length [360] <= length [noon_2000])%nat /\
  length [2451545] = length [360] /\ length [pymod (sidereal 2451545) 360] = length [360] /\
  length [0] = length [360] /\
  length [base_magnitude (-2.5) 10 (100 * (1 + 0.00245 * (sqrt 73728 - 120)))]
  = length [360].
Proof.
  apply (pipeline_keeps_track_length J2000_clock [noon_2000] [360] [288] [100]
           0 0 0 0 720 576 0 0 90 1 1 (-2.5) 10 zero_poly zero_poly).
  apply (centre_run J2000_clock noon_2000 100 0 1 1 (-2.5) 10 zero_poly zero_poly);
    try (rewrite poly_value_zero; reflexivity); try (unfold zero_poly; simpl; lia); lra.
Defined.

(** ** More on the magnitude estimator *)

Lemma ln_10_pos : 0 < ln 10.
Proof. rewrite <- ln_1. apply ln_increasing; lra. Qed.

Lemma log10_increasing (x y : R) : 0 < x -> x < y -> log10 x < log10 y.
Proof.
  intros Hx Hxy. unfold log10. pose proof ln_10_pos.
  apply Rmult_lt_compat_r; [apply Rinv_0_lt_compat; assumption |].
  apply ln_increasing; assumption.
Qed.

Lemma log10_pos (x : R) : 1 < x -> 0 < log10 x.
Proof.
  intro H. unfold log10. apply Rdiv_lt_0_compat; [| exact ln_10_pos].
  rewrite <- ln_1. apply ln_increasing; lra.
Qed.

Lemma degrees_nonneg_le (x : R) : 0 <= x <= PI -> 0 <= degrees x <= 180.
Proof.
  intros [H0 H1]. unfold degrees. pose proof PI_RGT_0 as Hpi.
  assert (Hi : 0 < / PI) by (apply Rinv_0_lt_compat; exact Hpi).
  assert (Hr : PI * / PI = 1) by (apply Rinv_r; lra).
  unfold Rdiv. split; nra.
Qed.

(** The length of a trail lies between 0 and 180 degrees. *)
Lemma law_of_cosines_length_range (ra_beg ra_end dec_beg dec_end : R) :
  0 <= law_of_cosines_length ra_beg ra_end dec_beg dec_end <= 180.
Proof.
  unfold law_of_cosines_length. apply degrees_nonneg_le. apply acos_bound.
Qed.

Lemma xadd_not_finite (x y : xreal) :
  (forall r, x <> Fin r) -> forall r, (x + y)%X <> Fin r.
Proof.
  intros Hx r. destruct x as [a | | |]; [exfalso; apply (Hx a); reflexivity | | |];
    destruct y; simpl; discriminate.
Qed.

Lemma xmul_inf_not_finite (a : R) : forall r, (Fin a * NInf)%X <> Fin r.
Proof.
  intro r. simpl. unfold by_sign.
  destruct (Rlt_dec 0 a); [discriminate |]. destruct (Rlt_dec a 0); discriminate.
Qed.

Lemma base_magnitude_zero (mag_0 mag_lev : R) :
  forall r, base_magnitude mag_0 mag_lev 0 <> Fin r.
Proof.
  unfold base_magnitude. cbn [xlog10]. rewrite by_sign_zero. cbn [xleb].
  apply xadd_not_finite. apply xmul_inf_not_finite.
Qed.

Lemma base_magnitude_negative (mag_0 mag_lev level : R) :
  level < 0 -> base_magnitude mag_0 mag_lev level = NaN.
Proof.
  intro H. unfold base_magnitude. cbn [xlog10]. unfold by_sign.
  destruct (Rlt_dec 0 level); [lra |]. destruct (Rlt_dec level 0); [| lra].
  reflexivity.
Qed.

Lemma magnitude_of_not_finite (v : xreal) (mag_0 mag_lev w_pix level : R) :
  (forall r, base_magnitude mag_0 mag_lev level <> Fin r) ->
  forall r, magnitude_of v mag_0 mag_lev w_pix level <> Fin r.
Proof.
  intros H r. unfold magnitude_of.
  destruct (xgtb v (Fin w_pix)); [| apply H].
  unfold xsub. apply xadd_not_finite. exact H.
Qed.

Lemma magnitude_of_NaN (v : xreal) (mag_0 mag_lev w_pix level : R) :
  base_magnitude mag_0 mag_lev level = NaN ->
  magnitude_of v mag_0 mag_lev w_pix level = NaN.
Proof.
  intro H. unfold magnitude_of. rewrite H.
  destruct (xgtb v (Fin w_pix)); reflexivity.
Qed.

(** X12.  A level that is not positive never gets a finite magnitude: the
    magnitude of a negative level is NaN, and that of the level 0 is
    infinite or NaN, whatever the calibration and the angular velocity. *)
Theorem nonpositive_level_has_no_magnitude (level_data : list R)
    (ra_beg ra_end dec_beg dec_end duration mag_0 mag_lev w_pix : R)
    (i : nat) (level : R) :
  nth_error level_data i = Some level -> level <= 0 ->
  exists m,
    nth_error (calculateMagnitudes level_data ra_beg ra_end dec_beg dec_end duration
                 mag_0 mag_lev w_pix) i = Some m /\
    (forall r, m <> Fin r) /\
    (level < 0 -> m = NaN).
Proof.
  intros Hi Hl. unfold calculateMagnitudes. rewrite nth_error_map, Hi. simpl.
  eexists. split; [reflexivity |]. split.
  - apply magnitude_of_not_finite.
    destruct (Rle_lt_or_eq_dec level 0 Hl) as [Hneg | ->].
    + rewrite (base_magnitude_negative _ _ _ Hneg). discriminate.
    + apply base_magnitude_zero.
  - intro Hneg. apply magnitude_of_NaN. apply base_magnitude_negative. exact Hneg.
Qed.

(** The level -5 at index 2. *)
Lemma nonpositive_level_has_no_magnitude_witness :
  exists m,
    nth_error (calculateMagnitudes [100; 0; -5] 10 12 40 41 0.5 (-2.5) 10 1) 2 = Some m /\
    (forall r, m <> Fin r) /\
    (-5 < 0 -> m = NaN).
Proof.
  apply (nonpositive_level_has_no_magnitude [100; 0; -5] 10 12 40 41 0.5 (-2.5) 10 1 2 (-5));
    [reflexivity | lra].
Defined.

(** The trail from one end to the other is as long as the trail back, and a
    full turn of right ascension does not change it. *)
Lemma trail_length_sym (ra_beg ra_end dec_beg dec_end : R) :
  trail_length ra_beg ra_end dec_beg dec_end = trail_length ra_end ra_beg dec_end dec_beg.
Proof.
  unfold trail_length. f_equal. f_equal.
  replace (radians ra_end - radians ra_beg) with (- (radians ra_beg - radians ra_end))
    by lra.
  rewrite cos_neg. ring.
Qed.

Lemma radians_full_turn (x : R) : radians (x + 360) = radians x + 2 * PI.
Proof. unfold radians. lra. Qed.

Lemma trail_length_wrap (ra_beg ra_end dec_beg dec_end : R) :
  trail_length (ra_beg + 360) ra_end dec_beg dec_end
  = trail_length ra_beg ra_end dec_beg dec_end.
Proof.
  unfold trail_length. f_equal. f_equal. rewrite radians_full_turn.
  replace (radians ra_beg + 2 * PI - radians ra_end)
    with (radians ra_beg - radians ra_end + 2 * PI) by lra.
  rewrite cos_plus, cos_2PI, sin_2PI. ring.
Qed.

(** X13.  The magnitudes do not change when the two ends of the track are
    exchanged, nor when the right ascension of an end is taken a full turn
    further, in exact arithmetic: a track across RA = 0 is measured as any
    other. *)
Theorem magnitudes_ignore_direction_and_wrap (level_data : list R)
    (ra_beg ra_end dec_beg dec_end duration mag_0 mag_lev w_pix : R) :
  calculateMagnitudes level_data ra_beg ra_end dec_beg dec_end duration mag_0 mag_lev w_pix
  = calculateMagnitudes level_data ra_end ra_beg dec_end dec_beg duration
      mag_0 mag_lev w_pix /\
  calculateMagnitudes level_data (ra_beg + 360) ra_end dec_beg dec_end duration
    mag_0 mag_lev w_pix
  = calculateMagnitudes level_data ra_beg ra_end dec_beg dec_end duration
      mag_0 mag_lev w_pix /\
  calculateMagnitudes level_data ra_beg (ra_end + 360) dec_beg dec_end duration
    mag_0 mag_lev w_pix
  = calculateMagnitudes level_data ra_beg ra_end dec_beg dec_end duration
      mag_0 mag_lev w_pix.
Proof.
  unfold calculateMagnitudes, angular_velocity. repeat split.
  - rewrite trail_length_sym. reflexivity.
  - rewrite trail_length_wrap. reflexivity.
  - rewrite (trail_length_sym ra_beg (ra_end + 360)), trail_length_wrap.
    rewrite (trail_length_sym ra_end ra_beg). reflexivity.
Qed.

(** X14.  For positive levels, a non-zero duration and a positive [w_pix],
    the magnitudes are the uncorrected magnitudes less one amount for the
    whole track; that amount is never negative, and it is positive exactly
    when the angular velocity exceeds [w_pix]. *)
Theorem velocity_correction_dims_all_alike (level_data : list R)
    (ra_beg ra_end dec_beg dec_end duration mag_0 mag_lev w_pix : R) :
  Forall (fun level => 0 < level) level_data ->
  duration <> 0 -> 0 < w_pix ->
  exists c,
    0 <= c /\
    (0 < c <-> w_pix < law_of_cosines_length ra_beg ra_end dec_beg dec_end / duration) /\
    calculateMagnitudes level_data ra_beg ra_end dec_beg dec_end duration
      mag_0 mag_lev w_pix
    = map (fun level => Fin (uncorrected_magnitude mag_0 mag_lev level - c)) level_data.
Proof.
  intros Hpos Hd Hw.
  set (v := law_of_cosines_length ra_beg ra_end dec_beg dec_end / duration).
  assert (Hm : calculateMagnitudes level_data ra_beg ra_end dec_beg dec_end duration
                 mag_0 mag_lev w_pix
               = map (fun level =>
                        Fin (if Rlt_dec w_pix v
                             then uncorrected_magnitude mag_0 mag_lev level
                                  - 2.5 * log10 (v / w_pix)
                             else uncorrected_magnitude mag_0 mag_lev level)) level_data).
  { unfold calculateMagnitudes, angular_velocity. rewrite trail_length_Fin.
    apply (map_ext_Forall (fun level => 0 < level)); [exact Hpos |].
    intros level Hl. rewrite (magnitude_of_spec _ _ _ _ _ Hl).
    apply spec_magnitude_finite; assumption. }
  destruct (Rlt_dec w_pix v) as [Hv | Hv].
  - exists (2.5 * log10 (v / w_pix)).
    assert (Hc : 0 < 2.5 * log10 (v / w_pix)).
    { apply Rmult_lt_0_compat; [lra |]. apply log10_pos.
      apply (Rmult_lt_reg_r w_pix); [exact Hw |].
      unfold Rdiv. rewrite Rmult_assoc, Rinv_l by lra. lra. }
    split; [lra |]. split; [tauto |]. exact Hm.
  - exists 0. split; [lra |]. split; [split; intro; [lra | contradiction] |].
    rewrite Hm. apply map_ext. intro level. f_equal. lra.
Qed.

(** A track of two levels that lasts half a second. *)
Lemma velocity_correction_dims_all_alike_witness :
  exists c,
    0 <= c /\
    (0 < c <-> 1 < law_of_cosines_length 10 12 40 41 / 0.5) /\
    calculateMagnitudes [100; 2000] 10 12 40 41 0.5 (-2.5) 10 1
    = map (fun level => Fin (uncorrected_magnitude (-2.5) 10 level - c)) [100; 2000].
Proof.
  apply (velocity_correction_dims_all_alike [100; 2000] 10 12 40 41 0.5 (-2.5) 10 1).
  - repeat constructor; lra.
  - lra.
  - lra.
Defined.

(** X15.  With a negative duration, as timestamps that run backwards give,
    and a [w_pix] that is not negative, no magnitude is corrected for
    angular velocity. *)
Theorem negative_duration_gives_no_correction (level_data : list R)
    (ra_beg ra_end dec_beg dec_end duration mag_0 mag_lev w_pix : R) :
  duration < 0 -> 0 <= w_pix ->
  calculateMagnitudes level_data ra_beg ra_end dec_beg dec_end duration mag_0 mag_lev w_pix
  = map (base_magnitude mag_0 mag_lev) level_data.
Proof.
  intros Hd Hw. unfold calculateMagnitudes, angular_velocity.
  rewrite trail_length_Fin. cbn [xdiv].
  destruct (Req_dec_T duration 0); [lra |].
  apply map_ext. intro level. unfold magnitude_of. cbn [xgtb].
  pose proof (law_of_cosines_length_range ra_beg ra_end dec_beg dec_end) as [Hl _].
  destruct (Rlt_dec w_pix (law_of_cosines_length ra_beg ra_end dec_beg dec_end / duration))
    as [Hv |]; [| reflexivity].
  exfalso.
  assert (Hi : / duration < 0) by (apply Rinv_lt_0_compat; exact Hd).
  unfold Rdiv in Hv. nra.
Qed.

(** A track that ends half a second before it begins. *)
Lemma negative_duration_gives_no_correction_witness :
  calculateMagnitudes [100; 2000] 10 12 40 41 (-0.5) (-2.5) 10 1
  = map (base_magnitude (-2.5) 10) [100; 2000].
Proof.
  apply (negative_duration_gives_no_correction [100; 2000] 10 12 40 41 (-0.5) (-2.5) 10 1);
    lra.
Defined.

(** X16.  With the duration 0 between two ends that are apart, positive
    levels and a positive [w_pix], the angular velocity is infinite and
    every magnitude is minus infinity. *)
Theorem zero_duration_gives_infinite_brightness (level_data : list R)
    (ra_beg ra_end dec_beg dec_end mag_0 mag_lev w_pix : R) :
  Forall (fun level => 0 < level) level_data ->
  0 < law_of_cosines_length ra_beg ra_end dec_beg dec_end -> 0 < w_pix ->
  calculateMagnitudes level_data ra_beg ra_end dec_beg dec_end 0 mag_0 mag_lev w_pix
  = map (fun _ => NInf) level_data.
Proof.
  intros Hpos Hlen Hw. unfold calculateMagnitudes, angular_velocity.
  rewrite trail_length_Fin. cbn [xdiv].
  destruct (Req_dec_T 0 0); [| congruence].
  rewrite by_sign_pos by exact Hlen.
  apply (map_ext_Forall (fun level => 0 < level)); [exact Hpos |].
  intros level Hl. unfold magnitude_of. rewrite (base_magnitude_Fin _ _ _ Hl).
  cbn [xgtb xdiv]. rewrite by_sign_pos by exact Hw.
  cbn [xlog10 xmul]. rewrite by_sign_pos by lra. reflexivity.
Qed.

Lemma length_equator_to_pole : law_of_cosines_length 0 0 0 90 = 90.
Proof.
  unfold law_of_cosines_length. rewrite radians_0, radians_90, Rminus_same.
  rewrite sin_0, cos_0, sin_PI2, cos_PI2.
  replace (0 * 1 + 1 * 0 * 1) with 0 by lra. rewrite acos_0. apply degrees_PI2.
Qed.

(** From the equator to the pole in no time. *)
Lemma zero_duration_gives_infinite_brightness_witness :
  calculateMagnitudes [100; 2000] 0 0 0 90 0 (-2.5) 10 1 = map (fun _ => NInf) [100; 2000].
Proof.
  apply (zero_duration_gives_infinite_brightness [100; 2000] 0 0 0 90 (-2.5) 10 1).
  - repeat constructor; lra.
  - rewrite length_equator_to_pole. lra.
  - lra.
Defined.

Lemma uncorrected_magnitude_decreasing (mag_0 mag_lev l1 l2 : R) :
  mag_0 < 0 -> 0.5 <= 3.2 * mag_0 + mag_lev ->
  0 < l1 -> l1 < l2 ->
  uncorrected_magnitude mag_0 mag_lev l2 < uncorrected_magnitude mag_0 mag_lev l1.
Proof.
  intros Hm Hc H1 H12. pose proof (log10_increasing l1 l2 H1 H12) as Hlog.
  unfold uncorrected_magnitude.
  destruct (Rle_dec (log10 l1) 3.2); destruct (Rle_dec (log10 l2) 3.2); nra.
Qed.

(** X17.  For a negative slope [mag_0] and calibration constants with
    [3.2 * mag_0 + mag_lev >= 0.5], so that the calibration line does not end
    below the saturation line, a larger positive level of a track gets a
    strictly smaller magnitude. *)
Theorem brighter_level_smaller_magnitude (level_data : list R)
    (ra_beg ra_end dec_beg dec_end duration mag_0 mag_lev w_pix : R)
    (i j : nat) (l1 l2 : R) :
  Forall (fun level => 0 < level) level_data ->
  duration <> 0 -> 0 < w_pix ->
  mag_0 < 0 -> 0.5 <= 3.2 * mag_0 + mag_lev ->
  nth_error level_data i = Some l1 -> nth_error level_data j = Some l2 -> l1 < l2 ->
  exists m1 m2,
    nth_error (calculateMagnitudes level_data ra_beg ra_end dec_beg dec_end duration
                 mag_0 mag_lev w_pix) i = Some (Fin m1) /\
    nth_error (calculateMagnitudes level_data ra_beg ra_end dec_beg dec_end duration
                 mag_0 mag_lev w_pix) j = Some (Fin m2) /\
    m2 < m1.
Proof.
  intros Hpos Hd Hw Hm Hc Hi Hj Hlt.
  assert (P1 : 0 < l1).
  { rewrite Forall_forall in Hpos. apply Hpos. eapply nth_error_In. exact Hi. }
  assert (P2 : 0 < l2) by lra.
  unfold calculateMagnitudes, angular_velocity. rewrite trail_length_Fin.
  rewrite !nth_error_map, Hi, Hj. cbn [option_map].
  rewrite (magnitude_of_spec _ _ _ _ _ P1), (magnitude_of_spec _ _ _ _ _ P2).
  rewrite !spec_magnitude_finite by assumption.
  pose proof (uncorrected_magnitude_decreasing mag_0 mag_lev l1 l2 Hm Hc P1 Hlt) as Hu.
  eexists _, _. split; [reflexivity |]. split; [reflexivity |].
  destruct (Rlt_dec w_pix _); lra.
Qed.

(** The levels 100 and 2000 of one track. *)
Lemma brighter_level_smaller_magnitude_witness :
  exists m1 m2,
    nth_error (calculateMagnitudes [100; 2000] 10 12 40 41 0.5 (-2.5) 10 1) 0
    = Some (Fin m1) /\
    nth_error (calculateMagnitudes [100; 2000] 10 12 40 41 0.5 (-2.5) 10 1) 1
    = Some (Fin m2) /\
    m2 < m1.
Proof.
  apply (brighter_level_smaller_magnitude [100; 2000] 10 12 40 41 0.5 (-2.5) 10 1 0 1
           100 2000); try reflexivity; try lra.
  repeat constructor; lra.
Defined.

(** ** More on the pairing *)

Lemma time_diff_nonneg (a b : point) : 0 <= time_diff a b.
Proof. unfold time_diff. apply Rabs_pos. Qed.

Lemma min_time_diff_nonneg (a : point) (points2 : list point) :
  0 <= min_time_diff a points2.
Proof.
  destruct points2 as [| b rest]; [simpl; lra |].
  destruct (min_time_diff_in a (b :: rest)) as [b' [_ E]]; [discriminate |].
  rewrite E. apply time_diff_nonneg.
Qed.

(** One iteration of the outer loop, by the point that the search ends on. *)
Lemma pair_step_closest (points2 : list point) (max_dt : R) (hint k : nat)
    (pairs : list (point * point)) (a bk : point) :
  closest points2 hint a = Ok (k, time_diff a bk) ->
  nth_error points2 k = Some bk ->
  pair_step points2 max_dt (hint, pairs) a
  = Ok (k, if Rltb (time_diff a bk) max_dt then pairs ++ [(a, bk)] else pairs).
Proof.
  intros Hc Hk. unfold pair_step. rewrite Hc. cbn [bind]. unfold Rltb.
  destruct (Rlt_dec (time_diff a bk) max_dt); [| reflexivity].
  unfold index. rewrite Hk. reflexivity.
Qed.

(** The outer loop under two tolerances: the same searches, and the pairs of
    the smaller tolerance among those of the larger. *)
Lemma pair_loop_tolerance (points2 : list point) (t1 t2 : R) (points1 : list point) :
  t1 <= t2 ->
  forall (hint : nat) (ps1 ps2 : list (point * point)),
    (hint < length points2)%nat ->
    exists k n1 n2,
      foldM (pair_step points2 t1) points1 (hint, ps1) = Ok (k, ps1 ++ n1) /\
      foldM (pair_step points2 t2) points1 (hint, ps2) = Ok (k, ps2 ++ n2) /\
      n1 = filter (fun ab => Rltb (time_diff (fst ab) (snd ab)) t1) n2.
Proof.
  intro Hle. induction points1 as [| a points1 IH]; intros hint ps1 ps2 Hh.
  - exists hint, [], []. simpl. rewrite !app_nil_r. repeat split.
  - destruct (index_lt points2 hint Hh) as [bh [_ Hbh]].
    destruct (closest_spec points2 hint bh a Hbh) as [k [bk [Hc [Hk _]]]].
    assert (Hklt : (k < length points2)%nat)
      by (apply nth_error_Some; rewrite Hk; discriminate).
    cbn [foldM].
    rewrite (pair_step_closest points2 t1 hint k ps1 a bk Hc Hk).
    rewrite (pair_step_closest points2 t2 hint k ps2 a bk Hc Hk). cbn [bind].
    destruct (IH k (if Rltb (time_diff a bk) t1 then ps1 ++ [(a, bk)] else ps1)
                (if Rltb (time_diff a bk) t2 then ps2 ++ [(a, bk)] else ps2) Hklt)
      as [k' [n1 [n2 [H1 [H2 Hn]]]]].
    rewrite H1, H2. unfold Rltb in *.
    destruct (Rlt_dec (time_diff a bk) t1) as [L1 | L1];
      destruct (Rlt_dec (time_diff a bk) t2) as [L2 | L2]; try lra.
    + exists k', ((a, bk) :: n1), ((a, bk) :: n2). rewrite <- !app_assoc. simpl.
      split; [reflexivity |]. split; [reflexivity |].
      destruct (Rlt_dec (time_diff a bk) t1); [| contradiction]. rewrite Hn. reflexivity.
    + exists k', n1, ((a, bk) :: n2). rewrite <- !app_assoc. simpl.
      split; [reflexivity |]. split; [reflexivity |].
      destruct (Rlt_dec (time_diff a bk) t1); [contradiction |]. exact Hn.
    + exists k', n1, n2. repeat split; assumption.
Qed.

(** X18.  Against a station that has a point, a tolerance that is not
    positive pairs nothing: the pairing returns the empty list. *)
Theorem pairing_nonpositive_tolerance (points1 points2 : list point) (max_dt : R) :
  points2 <> [] -> max_dt <= 0 ->
  findPointTimePairs points1 points2 max_dt = Ok [].
Proof.
  intros Hne Hdt.
  destruct (pairing_against_nonempty points1 points2 max_dt Hne) as [pairs [Hrun [Hmap _]]].
  rewrite Hrun. f_equal.
  assert (E : filter (fun a => Rltb (min_time_diff a points2) (max_dt / 86400)) points1 = []).
  { clear Hrun Hmap. induction points1 as [| a l IH]; [reflexivity |]. simpl.
    pose proof (min_time_diff_nonneg a points2). unfold Rltb at 1.
    destruct (Rlt_dec (min_time_diff a points2) (max_dt / 86400)); [lra | exact IH]. }
  rewrite E in Hmap. destruct pairs; [reflexivity | discriminate].
Qed.

(** A station against itself with the tolerance 0. *)
Lemma pairing_nonpositive_tolerance_witness :
  findPointTimePairs twin_station twin_station 0 = Ok [].
Proof.
  apply (pairing_nonpositive_tolerance twin_station twin_station 0); [discriminate | lra].
Defined.

(** X19.  The pairs found within a tolerance are those, among the pairs
    found within a larger tolerance and in their order, whose time
    difference is within the smaller one. *)
Theorem pairing_monotone_in_tolerance (points1 points2 : list point) (dt1 dt2 : R) :
  points2 <> [] -> dt1 <= dt2 ->
  exists pairs1 pairs2,
    findPointTimePairs points1 points2 dt1 = Ok pairs1 /\
    findPointTimePairs points1 points2 dt2 = Ok pairs2 /\
    pairs1 = filter (fun ab => Rltb (time_diff (fst ab) (snd ab)) (dt1 / 86400)) pairs2.
Proof.
  intros Hne Hle.
  assert (H0 : (0 < length points2)%nat) by (destruct points2; [congruence | simpl; lia]).
  assert (Ht : dt1 / 60 / 60 / 24 <= dt2 / 60 / 60 / 24) by lra.
  destruct (pair_loop_tolerance points2 _ _ points1 Ht 0%nat [] [] H0)
    as [k [n1 [n2 [H1 [H2 Hn]]]]].
  exists n1, n2. unfold findPointTimePairs. rewrite H1, H2. cbn [bind app].
  split; [reflexivity |]. split; [reflexivity |].
  rewrite Hn. replace (dt1 / 60 / 60 / 24) with (dt1 / 86400) by lra. reflexivity.
Qed.

(** The tolerances of one second and of ten days. *)
Lemma pairing_monotone_in_tolerance_witness :
  exists pairs1 pairs2,
    findPointTimePairs tie_station1 tie_station2 1 = Ok pairs1 /\
    findPointTimePairs tie_station1 tie_station2 864000 = Ok pairs2 /\
    pairs1 = filter (fun ab => Rltb (time_diff (fst ab) (snd ab)) (1 / 86400)) pairs2.
Proof.
  apply (pairing_monotone_in_tolerance tie_station1 tie_station2 1 864000);
    [discriminate | lra].
Defined.
